(** * nsqueue: the single-producer/single-consumer ring queue

    A shallow embedding of [include/spsc_queue.h] (class
    [nsqueue::spsc_queue<T, N>]) and the properties of its sequential
    behaviour.

    Conventions of the embedding.
    - [std::size_t] is a 64-bit unsigned integer: a [Z] in [0, 2^64), with the
      wrap-around of every arithmetic operation written out ([wrap]).
    - An atomic index is its value: the development follows one thread of
      control, so a load reads the field and a store replaces it, whatever
      the memory order.
    - The slot array is a list indexed with stdpp's lookup and insert.  An
      index outside the array is undefined behaviour in the source; here a
      read outside yields the value-initialised element and a write outside
      does nothing.  Reachable states never index outside ([wf_reachable]).
    - A spin loop takes a fuel argument and yields [None] when the fuel is
      spent before the loop exits. *)

From Stdlib Require Import ZArith Lia.
From stdpp Require Import base option list strings.

Local Open Scope Z_scope.

#[local] Arguments Z.eqb : simpl never.
#[local] Arguments Z.leb : simpl never.
#[local] Arguments Z.ltb : simpl never.

(** ** Machine integers *)

Definition size_t_modulus : Z := 2 ^ 64.

Definition wrap (x : Z) : Z := x mod size_t_modulus.

(** ** Constants of the header *)

(** [constexpr std::size_t STACK_BYTES = 524'288;] *)
Definition STACK_BYTES : Z := 524288.

Module details.
(** The feature macro tested by the header is never defined, so the
    [#else] branch is the one compiled. *)
Definition cacheLineSize : Z := 64.
End details.

(** ** Storage selection *)

(** Where the slot array of a [queue_storage] lives. *)
Inductive storage_kind : Type :=
| InlineArray   (* [std::array<U, SIZE> data]: embedded in the queue object *)
| HeapArray.    (* [std::unique_ptr<U[]> data], one [make_unique] in the constructor *)

(** [static constexpr std::size_t storage_bytes = 2 * N * details::cacheLineSize;] *)
Definition storage_bytes (N : Z) : Z := wrap (wrap (2 * N) * details.cacheLineSize).

(** [static constexpr bool use_heap = storage_bytes > STACK_BYTES;] *)
Definition use_heap (N : Z) : bool := STACK_BYTES <? storage_bytes N.

(** The two partial specialisations of [queue_storage<U, SIZE, heap>]:
    the one for [true] holds a [std::array], the one for [false] a
    [std::unique_ptr<U[]>]. *)
Definition queue_storage (heap : bool) : storage_kind :=
  match heap with
  | true => InlineArray
  | false => HeapArray
  end.

(** [queue_storage<AlignedData, N, use_heap> items_;] *)
Definition items_storage (N : Z) : storage_kind := queue_storage (use_heap N).

(** Number of heap allocations made by the constructor of the storage. *)
Definition construction_allocations (s : storage_kind) : nat :=
  match s with
  | InlineArray => 0%nat
  | HeapArray => 1%nat
  end.

(** [static_assert((N & (N - 1)) == 0, ...)] *)
Definition static_assert_pow2 (N : Z) : bool := Z.land N (wrap (N - 1)) =? 0.

(** A power of two that fits [std::size_t]. *)
Definition is_pow2 (N : Z) : Prop := ∃ k : Z, 0 ≤ k < 64 ∧ N = 2 ^ k.

(** ** Reader and writer state *)

Record ReadState : Type := mkReadState {
  readIndex_ : Z;
  writeIndexCache_ : Z
}.

Record WriteState : Type := mkWriteState {
  writeIndex_ : Z;
  readIndexCache_ : Z
}.

(** Member access by name on [ReadState]: the struct declares exactly
    [readIndex_] and [writeIndexCache_]. *)
Definition ReadState_member (name : string) : option (ReadState → Z) :=
  if String.eqb name "readIndex_" then Some readIndex_
  else if String.eqb name "writeIndexCache_" then Some writeIndexCache_
  else None.

Section Queue.

(** The element type, its value-initialised value ([T mObj{}]) and what a
    move leaves behind in the object moved from. *)
Context {T : Type}.
Variable dflt : T.
Variable moved_from : T → T.

(** The template parameter [N]. *)
Variable N : Z.

Record spsc_queue : Type := mkQueue {
  items_ : list T;
  reader_ : ReadState;
  writer_ : WriteState
}.

(** [static constexpr index_t mask_{N - 1};] *)
Definition mask_ : Z := wrap (N - 1).

(** [items_[idx].mObj] read and written. *)
Definition slot (items : list T) (idx : Z) : T :=
  default dflt (items !! Z.to_nat idx).

Definition store (items : list T) (idx : Z) (v : T) : list T :=
  <[Z.to_nat idx := v]> items.

(** The default constructor: every slot value-initialised, the four
    indices zero. *)
Definition fresh : spsc_queue :=
  {| items_ := replicate (Z.to_nat N) dflt;
     reader_ := {| readIndex_ := 0; writeIndexCache_ := 0 |};
     writer_ := {| writeIndex_ := 0; readIndexCache_ := 0 |} |}.

(** *** Field updates *)

Definition set_readIndexCache (q : spsc_queue) (x : Z) : spsc_queue :=
  {| items_ := items_ q;
     reader_ := reader_ q;
     writer_ := {| writeIndex_ := writeIndex_ (writer_ q); readIndexCache_ := x |} |}.

Definition set_writeIndex (q : spsc_queue) (x : Z) : spsc_queue :=
  {| items_ := items_ q;
     reader_ := reader_ q;
     writer_ := {| writeIndex_ := x; readIndexCache_ := readIndexCache_ (writer_ q) |} |}.

Definition set_writeIndexCache (q : spsc_queue) (x : Z) : spsc_queue :=
  {| items_ := items_ q;
     reader_ := {| readIndex_ := readIndex_ (reader_ q); writeIndexCache_ := x |};
     writer_ := writer_ q |}.

Definition set_readIndex (q : spsc_queue) (x : Z) : spsc_queue :=
  {| items_ := items_ q;
     reader_ := {| readIndex_ := x; writeIndexCache_ := writeIndexCache_ (reader_ q) |};
     writer_ := writer_ q |}.

Definition set_item (q : spsc_queue) (idx : Z) (v : T) : spsc_queue :=
  {| items_ := store (items_ q) idx v;
     reader_ := reader_ q;
     writer_ := writer_ q |}.

(** [(idx + 1) & mask_] *)
Definition next_index (idx : Z) : Z := Z.land (wrap (idx + 1)) mask_.

(** *** Enqueue *)

(** The tail shared by [emplace] and [force_emplace]: placement-new into
    the slot, then the store of the write index. *)
Definition construct_and_publish (q : spsc_queue) (writeIdx nextWriteIdx : Z) (v : T)
  : spsc_queue :=
  set_writeIndex (set_item q writeIdx v) nextWriteIdx.

(** [bool emplace(Args&&... args)]; [v] is the value the arguments
    construct. *)
Definition emplace (v : T) (q : spsc_queue) : bool * spsc_queue :=
  let writeIdx := writeIndex_ (writer_ q) in
  let nextWriteIdx := next_index writeIdx in
  if nextWriteIdx =? readIndexCache_ (writer_ q) then
    let q1 := set_readIndexCache q (readIndex_ (reader_ q)) in
    if nextWriteIdx =? readIndexCache_ (writer_ q1) then (false, q1)
    else (true, construct_and_publish q1 writeIdx nextWriteIdx v)
  else (true, construct_and_publish q writeIdx nextWriteIdx v).

(** [bool push(T const& item) { return emplace(item); }] *)
Definition push (item : T) (q : spsc_queue) : bool * spsc_queue := emplace item q.

(** [while (nextWriteIdx == writer_.readIndexCache_) { reload }] *)
Fixpoint spin_until_space (fuel : nat) (nextWriteIdx : Z) (q : spsc_queue)
  : option spsc_queue :=
  if nextWriteIdx =? readIndexCache_ (writer_ q) then
    match fuel with
    | O => None
    | S fuel' =>
        spin_until_space fuel' nextWriteIdx (set_readIndexCache q (readIndex_ (reader_ q)))
    end
  else Some q.

(** [void force_emplace(Args&&... args)] *)
Definition force_emplace (fuel : nat) (v : T) (q : spsc_queue) : option spsc_queue :=
  let writeIdx := writeIndex_ (writer_ q) in
  let nextWriteIdx := next_index writeIdx in
  match spin_until_space fuel nextWriteIdx q with
  | None => None
  | Some q1 => Some (construct_and_publish q1 writeIdx nextWriteIdx v)
  end.

(** [void force_push(T const& item) { return force_emplace(item); }] *)
Definition force_push (fuel : nat) (item : T) (q : spsc_queue) : option spsc_queue :=
  force_emplace fuel item q.

(** *** Dequeue *)

(** [item = std::move(items_[readIdx].mObj)]: the value read, and the slot
    left in its moved-from state. *)
Definition move_out (q : spsc_queue) (readIdx : Z) : T * spsc_queue :=
  let v := slot (items_ q) readIdx in
  (v, set_item q readIdx (moved_from v)).

(** [bool pop(T& item)]: [Some v] stands for [true] with [v] assigned to
    [item], [None] for [false] with [item] untouched. *)
Definition pop (q : spsc_queue) : option T * spsc_queue :=
  let readIdx := readIndex_ (reader_ q) in
  let writeIdx := writeIndexCache_ (reader_ q) in
  if readIdx =? writeIdx then
    let q1 := set_writeIndexCache q (writeIndex_ (writer_ q)) in
    let writeIdx := writeIndexCache_ (reader_ q1) in
    if readIdx =? writeIdx then (None, q1)
    else
      let '(v, q2) := move_out q1 readIdx in
      (Some v, set_readIndex q2 (next_index readIdx))
  else
    let '(v, q2) := move_out q readIdx in
    (Some v, set_readIndex q2 (next_index readIdx)).

(** [bool pop()]: the slot is not touched. *)
Definition pop_discard (q : spsc_queue) : bool * spsc_queue :=
  let readIdx := readIndex_ (reader_ q) in
  let writeIdx := writeIndexCache_ (reader_ q) in
  if readIdx =? writeIdx then
    let q1 := set_writeIndexCache q (writeIndex_ (writer_ q)) in
    let writeIdx := writeIndexCache_ (reader_ q1) in
    if readIdx =? writeIdx then (false, q1)
    else (true, set_readIndex q1 (next_index readIdx))
  else (true, set_readIndex q (next_index readIdx)).

(** [while (readIdx == writeIdx) { writeIdx = reader_.writeIndexCache_ = load }];
    the local [writeIdx] always equals the cache field. *)
Fixpoint spin_until_data (fuel : nat) (readIdx : Z) (q : spsc_queue)
  : option spsc_queue :=
  if readIdx =? writeIndexCache_ (reader_ q) then
    match fuel with
    | O => None
    | S fuel' =>
        spin_until_data fuel' readIdx (set_writeIndexCache q (writeIndex_ (writer_ q)))
    end
  else Some q.

(** [void force_pop(T& item)] *)
Definition force_pop (fuel : nat) (q : spsc_queue) : option (T * spsc_queue) :=
  let readIdx := readIndex_ (reader_ q) in
  match spin_until_data fuel readIdx q with
  | None => None
  | Some q1 =>
      let '(v, q2) := move_out q1 readIdx in
      Some (v, set_readIndex q2 (next_index readIdx))
  end.

(** [void force_pop()] *)
Definition force_pop_discard (fuel : nat) (q : spsc_queue) : option spsc_queue :=
  let readIdx := readIndex_ (reader_ q) in
  match spin_until_data fuel readIdx q with
  | None => None
  | Some q1 => Some (set_readIndex q1 (next_index readIdx))
  end.

(** *** Batch consumption *)

(** A callback is handed the slot's object as an rvalue,
    [func(std::move(items_[readIdx].mObj))], and acts on that object and
    on the caller's state [A]: [func v a] is what the call leaves in the
    object, paired with the caller's state after it. *)

(** A callback that leaves [leave v] in the object and acts on the caller's
    state as [f]. *)
Definition leaving {A : Type} (leave : T → T) (f : T → A → A) : T → A → T * A :=
  λ v a, (leave v, f v a).

(** A callback whose parameter has type [T]: the parameter is
    move-constructed from the slot, which is left moved-from. *)
Definition by_value {A : Type} (f : T → A → A) : T → A → T * A :=
  leaving moved_from f.


(** [func(std::move(items_[readIdx].mObj))] *)
Definition invoke {A : Type} (func : T → A → T * A) (q : spsc_queue)
    (readIdx : Z) (a : A) : spsc_queue * A :=
  let '(v', a') := func (slot (items_ q) readIdx) a in
  (set_item q readIdx v', a').

(** [bool consume_one(F&& func)] *)
Definition consume_one {A : Type} (func : T → A → T * A) (q : spsc_queue) (a : A)
  : bool * spsc_queue * A :=
  let readIdx := readIndex_ (reader_ q) in
  let writeIdx := writeIndexCache_ (reader_ q) in
  if readIdx =? writeIdx then
    let q1 := set_writeIndexCache q (writeIndex_ (writer_ q)) in
    let writeIdx := writeIndexCache_ (reader_ q1) in
    if readIdx =? writeIdx then (false, q1, a)
    else
      let '(q2, a') := invoke func q1 readIdx a in
      (true, set_readIndex q2 (next_index readIdx), a')
  else
    let '(q2, a') := invoke func q readIdx a in
    (true, set_readIndex q2 (next_index readIdx), a').

(** [while (consume_one(func)) ++n;] with the counter [n] so far. *)
Fixpoint consume_all_loop {A : Type} (fuel : nat) (func : T → A → T * A)
    (q : spsc_queue) (a : A) (n : Z) : option (Z * spsc_queue * A) :=
  match fuel with
  | O => None
  | S fuel' =>
      let '(b, q', a') := consume_one func q a in
      if b then consume_all_loop fuel' func q' a' (wrap (n + 1))
      else Some (n, q', a')
  end.

(** [index_t consume_all(F&& func)] *)
Definition consume_all {A : Type} (fuel : nat) (func : T → A → T * A)
    (q : spsc_queue) (a : A) : option (Z * spsc_queue * A) :=
  consume_all_loop fuel func q a 0.

(** [for (; m < n; ++m) { if (!consume_one(func)) break; }] *)
Fixpoint consume_n_loop {A : Type} (fuel : nat) (func : T → A → T * A)
    (q : spsc_queue) (a : A) (m n : Z) : option (Z * spsc_queue * A) :=
  if m <? n then
    match fuel with
    | O => None
    | S fuel' =>
        let '(b, q', a') := consume_one func q a in
        if b then consume_n_loop fuel' func q' a' (wrap (m + 1)) n
        else Some (m, q', a')
    end
  else Some (m, q, a).

(** [index_t consume_n(F&& func, index_t n)] *)
Definition consume_n {A : Type} (fuel : nat) (func : T → A → T * A) (n : Z)
    (q : spsc_queue) (a : A) : option (Z * spsc_queue * A) :=
  consume_n_loop fuel func q a 0 n.

(** *** Queries *)

(** [bool full() const] *)
Definition full (q : spsc_queue) : bool :=
  let writeIdx := writeIndex_ (writer_ q) in
  let nextWriteIdx := next_index writeIdx in
  let readIdx := readIndex_ (reader_ q) in
  nextWriteIdx =? readIdx.

(** [index_t size() const] *)
Definition size (q : spsc_queue) : Z :=
  let w := writeIndex_ (writer_ q) in
  let r := readIndex_ (reader_ q) in
  if r <=? w then wrap (w - r) else wrap (wrap (N - r) + w).

(** [bool empty() const] *)
Definition empty (q : spsc_queue) : bool :=
  writeIndex_ (writer_ q) =? readIndex_ (reader_ q).

(** [index_t read_available() const] *)
Definition read_available (q : spsc_queue) : Z := size q.

(** [T& front()]: the index is read from the member of [reader_] called
    [readIdx_]; where [ReadState] has no member of that name the function
    is ill-formed and denotes no value. *)
Definition front (q : spsc_queue) : option T :=
  match ReadState_member "readIdx_" with
  | Some member =>
      let r := member (reader_ q) in
      Some (slot (items_ q) r)
  | None => None
  end.

(** [size_t capacity() const] *)
Definition capacity : Z := mask_.

(** [void reset()] *)
Definition reset (q : spsc_queue) : spsc_queue :=
  set_writeIndex
    (set_readIndex (set_writeIndexCache (set_readIndexCache q 0) 0) 0) 0.

End Queue.

Arguments spsc_queue T : clear implicits.
Arguments mkQueue {T} _ _ _.

(** ** Sequences of operations *)

(** The operations that may change the queue.  Of the callback of a
    consume operation the queue sees only what it leaves in the object it
    is handed: [leave v] for the element [v] ([moved_from] for a callback
    taking its argument by value, the identity for one taking a reference
    and leaving it alone). *)
Inductive op (T : Type) : Type :=
| Emplace (v : T)
| Push (v : T)
| ForceEmplace (v : T)
| ForcePush (v : T)
| Pop
| PopDiscard
| ForcePop
| ForcePopDiscard
| ConsumeOne (leave : T → T)
| ConsumeAll (leave : T → T)
| ConsumeN (leave : T → T) (n : Z)   (* the limit, converted to [index_t] by the call *)
| Reset.

Arguments Emplace {T} v.
Arguments Push {T} v.
Arguments ForceEmplace {T} v.
Arguments ForcePush {T} v.
Arguments Pop {T}.
Arguments PopDiscard {T}.
Arguments ForcePop {T}.
Arguments ForcePopDiscard {T}.
Arguments ConsumeOne {T} leave.
Arguments ConsumeAll {T} leave.
Arguments ConsumeN {T} leave n.
Arguments Reset {T}.

(** What a call reports to its caller about the elements it handled. *)
Inductive report : Type :=
| Enqueued          (* an enqueue that returned [true], or a blocking one that returned *)
| Dequeued (n : Z)  (* [n] elements taken out *)
| Nothing           (* a non-blocking call that returned [false] *)
| Cleared.          (* [reset] *)

Definition report_of_bool (b : bool) (r : report) : report :=
  if b then r else Nothing.

Section Run.

Context {T : Type}.
Variable dflt : T.
Variable moved_from : T → T.
Variable N : Z.

(** The callback's action on the caller when only the queue matters. *)
Definition ignore : T → unit → unit := λ _ u, u.

(** One call: the queue afterwards and the caller's report, or [None]
    when the call spins beyond [fuel]. *)
Definition step (fuel : nat) (o : op T) (q : spsc_queue T)
  : option (spsc_queue T * report) :=
  match o with
  | Emplace v =>
      let '(b, q') := emplace N v q in Some (q', report_of_bool b Enqueued)
  | Push v =>
      let '(b, q') := push N v q in Some (q', report_of_bool b Enqueued)
  | ForceEmplace v =>
      q' ← force_emplace N fuel v q; Some (q', Enqueued)
  | ForcePush v =>
      q' ← force_push N fuel v q; Some (q', Enqueued)
  | Pop =>
      let '(r, q') := pop dflt moved_from N q in
      Some (q', match r with Some _ => Dequeued 1 | None => Nothing end)
  | PopDiscard =>
      let '(b, q') := pop_discard N q in Some (q', report_of_bool b (Dequeued 1))
  | ForcePop =>
      '(_, q') ← force_pop dflt moved_from N fuel q; Some (q', Dequeued 1)
  | ForcePopDiscard =>
      q' ← force_pop_discard N fuel q; Some (q', Dequeued 1)
  | ConsumeOne leave =>
      let '(b, q', _) := consume_one dflt N (leaving leave ignore) q tt in
      Some (q', report_of_bool b (Dequeued 1))
  | ConsumeAll leave =>
      '(n, q', _) ← consume_all dflt N fuel (leaving leave ignore) q tt;
      Some (q', Dequeued n)
  | ConsumeN leave n =>
      '(m, q', _) ← consume_n dflt N fuel (leaving leave ignore) (wrap n) q tt;
      Some (q', Dequeued m)
  | Reset => Some (reset q, Cleared)
  end.

(** The number of elements enqueued and not yet dequeued, kept by an
    observer who sees only the reports. *)
Definition count_after (live : Z) (r : report) : Z :=
  match r with
  | Enqueued => live + 1
  | Dequeued n => live - n
  | Nothing => live
  | Cleared => 0
  end.

(** A sequence of calls, with the observer's count. *)
Fixpoint run (fuel : nat) (ops : list (op T)) (q : spsc_queue T) (live : Z)
  : option (spsc_queue T * Z) :=
  match ops with
  | [] => Some (q, live)
  | o :: ops' =>
      match step fuel o q with
      | None => None
      | Some (q', r) => run fuel ops' q' (count_after live r)
      end
  end.

(** The states a queue can be in: the constructed one and every state a
    returning call leaves, the consume functions being called with any
    callback whatever. *)
Inductive reachable : spsc_queue T → Prop :=
| reachable_fresh : reachable (fresh dflt N)
| reachable_step fuel o q q' r :
    reachable q → step fuel o q = Some (q', r) → reachable q'
| reachable_consume_one (A : Type) (func : T → A → T * A) a q :
    reachable q → reachable (consume_one dflt N func q a).1.2
| reachable_consume_all (A : Type) fuel (func : T → A → T * A) a q n q' a' :
    reachable q →
    consume_all dflt N fuel func q a = Some (n, q', a') → reachable q'
| reachable_consume_n (A : Type) fuel (func : T → A → T * A) limit a q m q' a' :
    reachable q →
    consume_n dflt N fuel func (wrap limit) q a = Some (m, q', a') →
    reachable q'.

End Run.

(** ** The abstraction: live elements and the representation invariant *)

Section Abstraction.

Context {T : Type}.
Variable dflt : T.
Variable moved_from : T → T.
Variable N : Z.

(** Steps forward from [a] to [b] around the ring. *)
Definition dist (a b : Z) : Z := if a <=? b then b - a else N - a + b.

(** The index [j] steps after [r]. *)
Definition ring_index (r j : Z) : Z := if r + j <? N then r + j else r + j - N.

(** [n] slots starting at index [r], going round the ring. *)
Definition window (items : list T) (r : Z) (n : nat) : list T :=
  map (λ j : nat, slot dflt items (ring_index r (Z.of_nat j))) (seq 0 n).

(** ** The representation invariant

    The four indices are in range; going round the ring from the
    producer's cached read index one meets the read index and then the
    write index, and from the read index one meets the consumer's cached
    write index and then the write index. *)
Record wf (q : spsc_queue T) : Prop := mk_wf {
  wf_items : length (items_ q) = Z.to_nat N;
  wf_readIndex : 0 ≤ readIndex_ (reader_ q) < N;
  wf_writeIndex : 0 ≤ writeIndex_ (writer_ q) < N;
  wf_readIndexCache : 0 ≤ readIndexCache_ (writer_ q) < N;
  wf_writeIndexCache : 0 ≤ writeIndexCache_ (reader_ q) < N;
  wf_producer_view :
    dist (readIndexCache_ (writer_ q)) (readIndex_ (reader_ q))
    + dist (readIndex_ (reader_ q)) (writeIndex_ (writer_ q)) < N;
  wf_consumer_view :
    dist (readIndex_ (reader_ q)) (writeIndexCache_ (reader_ q))
    + dist (writeIndexCache_ (reader_ q)) (writeIndex_ (writer_ q)) < N
}.

(** The elements enqueued and not yet dequeued, oldest first: the slots
    from the read index up to the write index. *)
Definition contents (q : spsc_queue T) : list T :=
  let r := readIndex_ (reader_ q) in
  let w := writeIndex_ (writer_ q) in
  map (λ j : nat, slot dflt (items_ q) (ring_index r (Z.of_nat j)))
      (seq 0 (Z.to_nat (dist r w))).

(** *** Drivers for sequences of calls *)

(** Enqueue the values of [vs] one after the other; [Some] when every
    [emplace] returned [true]. *)
Fixpoint emplace_all (vs : list T) (q : spsc_queue T) : option (spsc_queue T) :=
  match vs with
  | [] => Some q
  | v :: vs' =>
      let '(b, q') := emplace N v q in
      if b then emplace_all vs' q' else None
  end.

(** Dequeue [k] times; [Some] when every [pop] returned [true], with the
    values assigned to [item] in the order of the calls. *)
Fixpoint pop_all (k : nat) (q : spsc_queue T) : option (list T * spsc_queue T) :=
  match k with
  | O => Some ([], q)
  | S k' =>
      match pop dflt moved_from N q with
      | (Some v, q') =>
          match pop_all k' q' with
          | Some (vs, q'') => Some (v :: vs, q'')
          | None => None
          end
      | (None, _) => None
      end
  end.

(** A callback that records its arguments, latest last. *)
Definition record_call : T → list T → list T := λ v log, log ++ [v].

End Abstraction.

(** ** Calls with their answers, and the bounded FIFO they implement *)

(** What a call hands back to its caller. *)
Inductive answer (T : Type) : Type :=
| Accepted (b : bool)                 (* [emplace], [push]: the [bool] returned *)
| Done                                (* a [void] function that returned *)
| Popped (r : option T)               (* [pop(item)]: [Some v] is [true] with [item = v] *)
| Dropped (b : bool)                  (* [pop()]: the [bool] returned *)
| Taken (v : T)                       (* [force_pop(item)]: the value left in [item] *)
| ConsumedOne (b : bool) (log : list T)  (* [consume_one]: result, callback arguments *)
| Consumed (n : Z) (log : list T).    (* [consume_all], [consume_n]: count, callback arguments *)

Arguments Accepted {T} b.
Arguments Done {T}.
Arguments Popped {T} r.
Arguments Dropped {T} b.
Arguments Taken {T} v.
Arguments ConsumedOne {T} b log.
Arguments Consumed {T} n log.

Section Calls.

Context {T : Type}.
Variable dflt : T.
Variable moved_from : T → T.
Variable N : Z.

(** One call on the queue, with a recording callback for the consume
    functions: the queue afterwards and the answer, or [None] when the call
    spins beyond [fuel]. *)
Definition call (fuel : nat) (o : op T) (q : spsc_queue T)
  : option (spsc_queue T * answer T) :=
  match o with
  | Emplace v => let '(b, q') := emplace N v q in Some (q', Accepted b)
  | Push v => let '(b, q') := push N v q in Some (q', Accepted b)
  | ForceEmplace v => q' ← force_emplace N fuel v q; Some (q', Done)
  | ForcePush v => q' ← force_push N fuel v q; Some (q', Done)
  | Pop => let '(r, q') := pop dflt moved_from N q in Some (q', Popped r)
  | PopDiscard => let '(b, q') := pop_discard N q in Some (q', Dropped b)
  | ForcePop => '(v, q') ← force_pop dflt moved_from N fuel q; Some (q', Taken v)
  | ForcePopDiscard => q' ← force_pop_discard N fuel q; Some (q', Done)
  | ConsumeOne leave =>
      let '(b, q', log) := consume_one dflt N (leaving leave record_call) q [] in
      Some (q', ConsumedOne b log)
  | ConsumeAll leave =>
      '(n, q', log) ← consume_all dflt N fuel (leaving leave record_call) q [];
      Some (q', Consumed n log)
  | ConsumeN leave n =>
      '(m, q', log) ← consume_n dflt N fuel (leaving leave record_call) (wrap n) q [];
      Some (q', Consumed m log)
  | Reset => Some (reset q, Done)
  end.

(** A sequence of calls and their answers. *)
Fixpoint calls (fuel : nat) (ops : list (op T)) (q : spsc_queue T)
  : option (spsc_queue T * list (answer T)) :=
  match ops with
  | [] => Some (q, [])
  | o :: ops' =>
      match call fuel o q with
      | None => None
      | Some (q', a) =>
          match calls fuel ops' q' with
          | None => None
          | Some (q'', answers) => Some (q'', a :: answers)
          end
      end
  end.

(** The reference model: a first-in first-out list of at most [N - 1]
    elements.  A blocking call on a list that cannot serve it has no
    outcome. *)
Definition fifo_call (o : op T) (l : list T) : option (list T * answer T) :=
  match o with
  | Emplace v | Push v =>
      if Z.of_nat (length l) <? N - 1 then Some (l ++ [v], Accepted true)
      else Some (l, Accepted false)
  | ForceEmplace v | ForcePush v =>
      if Z.of_nat (length l) <? N - 1 then Some (l ++ [v], Done) else None
  | Pop =>
      match l with
      | [] => Some ([], Popped None)
      | v :: l' => Some (l', Popped (Some v))
      end
  | PopDiscard =>
      match l with
      | [] => Some ([], Dropped false)
      | _ :: l' => Some (l', Dropped true)
      end
  | ForcePop =>
      match l with
      | [] => None
      | v :: l' => Some (l', Taken v)
      end
  | ForcePopDiscard =>
      match l with
      | [] => None
      | _ :: l' => Some (l', Done)
      end
  | ConsumeOne _ =>
      match l with
      | [] => Some ([], ConsumedOne false [])
      | v :: l' => Some (l', ConsumedOne true [v])
      end
  | ConsumeAll _ => Some ([], Consumed (Z.of_nat (length l)) l)
  | ConsumeN _ n =>
      let k := Z.to_nat (wrap n) in
      Some (drop k l, Consumed (Z.min (wrap n) (Z.of_nat (length l))) (take k l))
  | Reset => Some ([], Done)
  end.

Fixpoint fifo_calls (ops : list (op T)) (l : list T)
  : option (list T * list (answer T)) :=
  match ops with
  | [] => Some (l, [])
  | o :: ops' =>
      match fifo_call o l with
      | None => None
      | Some (l', a) =>
          match fifo_calls ops' l' with
          | None => None
          | Some (l'', answers) => Some (l'', a :: answers)
          end
      end
  end.

(** The values a call put into the queue and the values it handed out, as
    its caller sees them. *)
Definition values_in (o : op T) (a : answer T) : list T :=
  match o, a with
  | (Emplace v | Push v), Accepted true => [v]
  | (ForceEmplace v | ForcePush v), Done => [v]
  | _, _ => []
  end.

Definition values_out (a : answer T) : list T :=
  match a with
  | Popped (Some v) => [v]
  | Taken v => [v]
  | ConsumedOne _ log => log
  | Consumed _ log => log
  | _ => []
  end.

(** Calls whose effect on the elements is visible in their answer: all but
    [reset] and the two [pop()] forms, which discard without telling. *)
Definition tells_values (o : op T) : bool :=
  match o with
  | Reset | PopDiscard | ForcePopDiscard => false
  | _ => true
  end.

Fixpoint all_in (ops : list (op T)) (answers : list (answer T)) : list T :=
  match ops, answers with
  | o :: ops', a :: answers' => values_in o a ++ all_in ops' answers'
  | _, _ => []
  end.

Fixpoint all_out (answers : list (answer T)) : list T :=
  match answers with
  | a :: answers' => values_out a ++ all_out answers'
  | [] => []
  end.

End Calls.

(** ** The mutex-protected queue of the benchmarks

    [template <class T> class mutex_queue]: a [std::queue] behind a mutex
    and a condition variable.  One thread of control is followed: taking
    the lock and notifying have no effect on the data, and a wait on a
    predicate that is false never ends, which is [None]. *)
Module mutex_queue.

Record t (T : Type) : Type := mk {
  capacity_ : Z;
  q_ : list T   (* [std::queue<T>]: front first *)
}.
Arguments mk {T} _ _.
Arguments capacity_ {T} _.
Arguments q_ {T} _.

Section Ops.

Context {T : Type}.

(** [mutex_queue(std::size_t capacity) : capacity_{capacity} {}] *)
Definition make (capacity : Z) : t T := {| capacity_ := wrap capacity; q_ := [] |}.

(** [bool push(T item)] *)
Definition push (item : T) (mq : t T) : bool * t T :=
  (true, {| capacity_ := capacity_ mq; q_ := q_ mq ++ [item] |}).

(** [cv_.wait(lock, [&] { return !q_.empty(); })] *)
Definition wait_not_empty (mq : t T) : option (t T) :=
  match q_ mq with
  | [] => None
  | _ :: _ => Some mq
  end.

(** [bool pop(T& item)]: the value assigned to [item], and the queue. *)
Definition pop (mq : t T) : option (bool * T * t T) :=
  mq' ← wait_not_empty mq;
  match q_ mq' with
  | item :: rest => Some (true, item, {| capacity_ := capacity_ mq'; q_ := rest |})
  | [] => None
  end.

(** [bool pop()] *)
Definition pop_discard (mq : t T) : option (bool * t T) :=
  mq' ← wait_not_empty mq;
  Some (true, {| capacity_ := capacity_ mq'; q_ := tail (q_ mq') |}).

(** [bool consume_one(F&& func)]: the callback sees a copy of the front
    element, which is then popped. *)
Definition consume_one {A : Type} (func : T → A → A) (mq : t T) (a : A)
  : option (bool * t T * A) :=
  mq' ← wait_not_empty mq;
  match q_ mq' with
  | item :: rest =>
      Some (true, {| capacity_ := capacity_ mq'; q_ := rest |}, func item a)
  | [] => None
  end.

(** Push the values of [vs] one after the other. *)
Definition push_all (vs : list T) (mq : t T) : t T :=
  fold_left (λ acc v, (push v acc).2) vs mq.

(** Pop [k] times, collecting the values. *)
Fixpoint pop_all (k : nat) (mq : t T) : option (list T * t T) :=
  match k with
  | O => Some ([], mq)
  | S k' =>
      match pop mq with
      | Some (_, v, mq') =>
          match pop_all k' mq' with
          | Some (vs, mq'') => Some (v :: vs, mq'')
          | None => None
          end
      | None => None
      end
  end.

End Ops.

End mutex_queue.

(** ** Index arithmetic *)

Section Theory.

Context {T : Type}.
Variable dflt : T.
Variable moved_from : T → T.
Variable N : Z.
Hypothesis HN : is_pow2 N.

Local Abbreviation queue := (spsc_queue T).
Implicit Types q : spsc_queue T.
Implicit Types items : list T.

Lemma pow2_range : 1 ≤ N ≤ 2 ^ 63.
Proof.
  destruct HN as (k & Hk & ->). split.
  - assert (0 < 2 ^ k) by (apply Z.pow_pos_nonneg; lia). lia.
  - apply Z.pow_le_mono_r; lia.
Qed.

Lemma wrap_small x : 0 ≤ x < 2 ^ 64 → wrap x = x.
Proof. intros Hx. unfold wrap, size_t_modulus. by apply Z.mod_small. Qed.

Lemma mask_val : mask_ N = N - 1.
Proof. unfold mask_. pose proof pow2_range. apply wrap_small. lia. Qed.

Lemma capacity_val : capacity N = N - 1.
Proof. apply mask_val. Qed.

Lemma land_mask x : 0 ≤ x → Z.land x (N - 1) = x mod N.
Proof.
  intros Hx. destruct HN as (k & Hk & ->).
  rewrite <- Z.land_ones by lia. f_equal.
  rewrite Z.ones_equiv. lia.
Qed.

(** A power of two passes the header's [static_assert]. *)
Lemma pow2_static_assert : static_assert_pow2 N = true.
Proof.
  unfold static_assert_pow2. fold (mask_ N). rewrite mask_val.
  pose proof pow2_range. rewrite land_mask by lia.
  rewrite Z.mod_same by lia. done.
Qed.

(** The successor of an index in range: one more, or zero at the end of
    the array. *)
Lemma next_index_val x :
  0 ≤ x < N → next_index N x = if x + 1 =? N then 0 else x + 1.
Proof.
  intros Hx. pose proof pow2_range as HR. unfold next_index.
  rewrite mask_val, wrap_small by lia.
  rewrite land_mask by lia.
  destruct (Z.eqb_spec (x + 1) N) as [->|Hne].
  - apply Z.mod_same. lia.
  - apply Z.mod_small. lia.
Qed.

Lemma next_index_range x : 0 ≤ x < N → 0 ≤ next_index N x < N.
Proof.
  intros Hx. rewrite next_index_val by done.
  destruct (Z.eqb_spec (x + 1) N); lia.
Qed.



Ltac break_queue q :=
  let items := fresh "items" in
  let r := fresh "r" in
  let wc := fresh "wc" in
  let w := fresh "w" in
  let rc := fresh "rc" in
  destruct q as [items [r wc] [w rc]]; simpl in *.

Ltac split_order :=
  repeat match goal with
    | |- context [?a =? ?b] => destruct (Z.eqb_spec a b)
    | |- context [?a <=? ?b] => destruct (Z.leb_spec a b)
    | |- context [?a <? ?b] => destruct (Z.ltb_spec a b)
    | H : context [?a =? ?b] |- _ => destruct (Z.eqb_spec a b)
    | H : context [?a <=? ?b] |- _ => destruct (Z.leb_spec a b)
    | H : context [?a <? ?b] |- _ => destruct (Z.ltb_spec a b)
    end.

Ltac ring_arith :=
  unfold dist, ring_index, construct_and_publish, set_readIndexCache,
    set_writeIndex, set_writeIndexCache, set_readIndex, set_item in *;
  split_order; simpl in *;
  try discriminate; try lia; try (repeat f_equal; lia).

Lemma wf_fresh : wf N (fresh dflt N).
Proof.
  pose proof pow2_range.
  split; simpl; try lia; [by rewrite length_replicate | ring_arith ..].
Qed.

Lemma wf_reset q : wf N q → wf N (reset q).
Proof.
  pose proof pow2_range.
  intros [? ? ? ? ? ? ?]. split; simpl; try lia; try done; ring_arith.
Qed.

(** *** Enqueue preserves the invariant *)

Lemma wf_emplace v q : wf N q → wf N (emplace N v q).2.
Proof.
  intros [Hi Hr Hw Hrc Hwc Hp Hc]. break_queue q.
  unfold emplace; simpl. rewrite next_index_val by done.
  pose proof pow2_range.
  repeat case_match; simpl; split; simpl; unfold store;
    rewrite ?length_insert; try done; ring_arith.
Qed.

(** *** Dequeue preserves the invariant *)

(** The three dequeue functions take the same decision and leave the same
    indices; they differ in what they do with the slot. *)
Lemma pop_discard_pop q :
  (pop_discard N q).1 = bool_decide (is_Some (pop dflt moved_from N q).1).
Proof.
  unfold pop_discard, pop, move_out. repeat case_match; simplify_eq/=; done.
Qed.


(** Called with any callback, it is [pop()] with the callback's leavings
    written to the slot that was read. *)
Lemma consume_one_pop_discard {A} (func : T → A → T * A) q a :
  consume_one dflt N func q a =
    let r := readIndex_ (reader_ q) in
    let '(b, q') := pop_discard N q in
    if b then
      (true, set_item q' r (func (slot dflt (items_ q) r) a).1,
       (func (slot dflt (items_ q) r) a).2)
    else (false, q', a).
Proof.
  unfold consume_one, invoke, pop_discard. simpl.
  destruct (func (slot dflt (items_ q) (readIndex_ (reader_ q))) a) as [v' a'].
  repeat case_match; simplify_eq/=; done.
Qed.

Lemma wf_pop q : wf N q → wf N (pop dflt moved_from N q).2.
Proof.
  intros [Hi Hr Hw Hrc Hwc Hp Hc]. break_queue q.
  unfold pop, move_out; simpl. rewrite next_index_val by done.
  pose proof pow2_range.
  repeat case_match; simplify_eq/=; split; simpl; unfold store;
    rewrite ?length_insert; try done; ring_arith.
Qed.

Lemma wf_pop_discard q : wf N q → wf N (pop_discard N q).2.
Proof.
  intros [Hi Hr Hw Hrc Hwc Hp Hc]. break_queue q.
  unfold pop_discard; simpl. rewrite next_index_val by done.
  pose proof pow2_range.
  repeat case_match; simplify_eq/=; split; simpl;
    try done; ring_arith.
Qed.


(** *** The spin loops, run by one thread

    With nobody else to move the other index, one reload decides: the
    loop exits at once, exits after the first reload, or never exits. *)

Lemma spin_until_space_stuck fuel next (q : queue) :
  next = readIndexCache_ (writer_ q) → next = readIndex_ (reader_ q) →
  spin_until_space fuel next q = None.
Proof.
  revert q. induction fuel as [|fuel IH]; intros q Hc Hr; simpl.
  - by rewrite <- Hc, Z.eqb_refl.
  - rewrite <- Hc, Z.eqb_refl. apply IH; simpl; congruence.
Qed.

Lemma spin_until_space_val fuel next (q : queue) :
  spin_until_space fuel next q =
    if next =? readIndexCache_ (writer_ q) then
      match fuel with
      | O => None
      | S _ =>
          if next =? readIndex_ (reader_ q) then None
          else Some (set_readIndexCache q (readIndex_ (reader_ q)))
      end
    else Some q.
Proof.
  destruct fuel as [|fuel]; simpl; [done|].
  destruct (Z.eqb_spec next (readIndexCache_ (writer_ q))); [|done].
  destruct (Z.eqb_spec next (readIndex_ (reader_ q))) as [Hr|Hr].
  - by apply spin_until_space_stuck.
  - destruct fuel; simpl; by rewrite (proj2 (Z.eqb_neq _ _) Hr).
Qed.

Lemma spin_until_data_stuck fuel readIdx (q : queue) :
  readIdx = writeIndexCache_ (reader_ q) → readIdx = writeIndex_ (writer_ q) →
  spin_until_data fuel readIdx q = None.
Proof.
  revert q. induction fuel as [|fuel IH]; intros q Hc Hw; simpl.
  - by rewrite <- Hc, Z.eqb_refl.
  - rewrite <- Hc, Z.eqb_refl. apply IH; simpl; congruence.
Qed.

Lemma spin_until_data_val fuel readIdx (q : queue) :
  spin_until_data fuel readIdx q =
    if readIdx =? writeIndexCache_ (reader_ q) then
      match fuel with
      | O => None
      | S _ =>
          if readIdx =? writeIndex_ (writer_ q) then None
          else Some (set_writeIndexCache q (writeIndex_ (writer_ q)))
      end
    else Some q.
Proof.
  destruct fuel as [|fuel]; simpl; [done|].
  destruct (Z.eqb_spec readIdx (writeIndexCache_ (reader_ q))); [|done].
  destruct (Z.eqb_spec readIdx (writeIndex_ (writer_ q))) as [Hw|Hw].
  - by apply spin_until_data_stuck.
  - destruct fuel; simpl; by rewrite (proj2 (Z.eqb_neq _ _) Hw).
Qed.

(** A blocking call that returns has done what the non-blocking call
    does when it succeeds. *)
Lemma force_emplace_returns fuel v (q q' : queue) :
  force_emplace N fuel v q = Some q' → emplace N v q = (true, q').
Proof.
  unfold force_emplace, emplace. rewrite spin_until_space_val. simpl.
  repeat case_match; naive_solver.
Qed.

Lemma force_pop_returns fuel (q q' : queue) v :
  force_pop dflt moved_from N fuel q = Some (v, q') →
  pop dflt moved_from N q = (Some v, q').
Proof.
  unfold force_pop, pop. rewrite spin_until_data_val. simpl.
  repeat case_match; naive_solver.
Qed.

Lemma force_pop_discard_returns fuel (q q' : queue) :
  force_pop_discard N fuel q = Some q' → pop_discard N q = (true, q').
Proof.
  unfold force_pop_discard, pop_discard. rewrite spin_until_data_val. simpl.
  repeat case_match; naive_solver.
Qed.

(** Conversely, one unit of fuel is enough where the non-blocking call
    succeeds, and no amount is where it fails. *)
Lemma force_emplace_of_emplace fuel v (q : queue) :
  force_emplace N (S fuel) v q =
    match emplace N v q with
    | (true, q') => Some q'
    | (false, _) => None
    end.
Proof.
  unfold force_emplace, emplace. rewrite spin_until_space_val. simpl.
  repeat case_match; naive_solver.
Qed.

Lemma force_pop_of_pop fuel (q : queue) :
  force_pop dflt moved_from N (S fuel) q =
    match pop dflt moved_from N q with
    | (Some v, q') => Some (v, q')
    | (None, _) => None
    end.
Proof.
  unfold force_pop, pop. rewrite spin_until_data_val. simpl.
  repeat case_match; naive_solver.
Qed.

(** *** What the queries say in a well-formed state *)

Lemma size_val q : wf N q →
  size N q = dist N (readIndex_ (reader_ q)) (writeIndex_ (writer_ q)).
Proof.
  intros [Hi Hr Hw Hrc Hwc Hp Hc]. pose proof pow2_range.
  unfold size, dist.
  destruct (Z.leb_spec (readIndex_ (reader_ q)) (writeIndex_ (writer_ q))).
  - apply wrap_small. lia.
  - rewrite (wrap_small (N - _)) by lia. apply wrap_small. lia.
Qed.

Lemma size_range q : wf N q → 0 ≤ size N q ≤ N - 1.
Proof.
  intros Hq. rewrite size_val by done.
  destruct Hq as [Hi Hr Hw Hrc Hwc Hp Hc]. ring_arith.
Qed.

Lemma empty_size q : wf N q → empty q = true ↔ size N q = 0.
Proof.
  intros Hq. rewrite size_val by done.
  destruct Hq as [Hi Hr Hw Hrc Hwc Hp Hc]. unfold empty. ring_arith.
Qed.

Lemma full_size q : wf N q → full N q = true ↔ size N q = N - 1.
Proof.
  intros Hq. rewrite size_val by done.
  destruct Hq as [Hi Hr Hw Hrc Hwc Hp Hc]. unfold full.
  rewrite next_index_val by done. ring_arith.
Qed.

Lemma length_contents q : wf N q → Z.of_nat (length (contents dflt N q)) = size N q.
Proof.
  intros Hq. rewrite size_val by done. unfold contents.
  rewrite length_map, length_seq.
  destruct Hq as [Hi Hr Hw Hrc Hwc Hp Hc]. rewrite Z2Nat.id; ring_arith.
Qed.

(** *** The two outcomes of [emplace] *)

Lemma emplace_full v q : wf N q → full N q = true → emplace N v q = (false, q).
Proof.
  intros [Hi Hr Hw Hrc Hwc Hp Hc]. break_queue q.
  unfold full, emplace; simpl. rewrite next_index_val by done.
  intros Hfull. repeat case_match; simplify_eq/=; try done; ring_arith.
Qed.

Lemma emplace_not_full v q : wf N q → full N q = false →
  ∃ q', emplace N v q = (true, q')
    ∧ items_ q' = store (items_ q) (writeIndex_ (writer_ q)) v
    ∧ readIndex_ (reader_ q') = readIndex_ (reader_ q)
    ∧ writeIndex_ (writer_ q') = next_index N (writeIndex_ (writer_ q)).
Proof.
  intros [Hi Hr Hw Hrc Hwc Hp Hc]. break_queue q.
  unfold full, emplace; simpl.
  intros Hfull. repeat case_match; simplify_eq/=; eauto; ring_arith.
Qed.

(** *** The two outcomes of [pop] *)

Lemma pop_empty q : wf N q → empty q = true → pop dflt moved_from N q = (None, q).
Proof.
  intros [Hi Hr Hw Hrc Hwc Hp Hc]. break_queue q.
  unfold empty, pop, move_out; simpl.
  intros Hempty. repeat case_match; simplify_eq/=; try done; ring_arith.
Qed.

Lemma pop_not_empty q : wf N q → empty q = false →
  ∃ q', pop dflt moved_from N q
        = (Some (slot dflt (items_ q) (readIndex_ (reader_ q))), q')
    ∧ items_ q' = store (items_ q) (readIndex_ (reader_ q))
                    (moved_from (slot dflt (items_ q) (readIndex_ (reader_ q))))
    ∧ readIndex_ (reader_ q') = next_index N (readIndex_ (reader_ q))
    ∧ writeIndex_ (writer_ q') = writeIndex_ (writer_ q).
Proof.
  intros [Hi Hr Hw Hrc Hwc Hp Hc]. break_queue q.
  unfold empty, pop, move_out; simpl.
  intros Hempty. repeat case_match; simplify_eq/=; eauto; ring_arith.
Qed.

(** *** Slots and the live window *)

Lemma slot_store_same (items : list T) i v :
  0 ≤ i < N → length items = Z.to_nat N → slot dflt (store items i v) i = v.
Proof.
  intros Hi Hlen. unfold slot, store.
  rewrite list_lookup_insert_eq by lia. done.
Qed.

Lemma slot_store_other (items : list T) i j v :
  0 ≤ i → 0 ≤ j → i ≠ j → slot dflt (store items i v) j = slot dflt items j.
Proof.
  intros Hi Hj Hne. unfold slot, store.
  rewrite list_lookup_insert_ne by lia. done.
Qed.


Lemma contents_window q :
  contents dflt N q =
    window dflt N (items_ q) (readIndex_ (reader_ q))
      (Z.to_nat (dist N (readIndex_ (reader_ q)) (writeIndex_ (writer_ q)))).
Proof. done. Qed.

Lemma window_snoc items r n :
  window dflt N items r (S n)
  = window dflt N items r n ++ [slot dflt items (ring_index N r (Z.of_nat n))].
Proof. unfold window. by rewrite seq_S, map_app. Qed.

Lemma window_cons items r n :
  0 ≤ r < N → (Z.of_nat n < N) →
  window dflt N items r (S n) = slot dflt items r :: window dflt N items (next_index N r) n.
Proof.
  intros Hr Hn. unfold window. simpl. f_equal.
  - f_equal. ring_arith.
  - rewrite <- seq_shift, map_map. apply map_ext_in.
    intros j Hj%in_seq. f_equal. rewrite next_index_val by done. ring_arith.
Qed.

Lemma window_store items r n i v :
  0 ≤ r < N → 0 ≤ i < N →
  (∀ j : nat, (j < n)%nat → ring_index N r (Z.of_nat j) ≠ i) →
  window dflt N (store items i v) r n = window dflt N items r n.
Proof.
  intros Hr Hi Hout. unfold window. apply map_ext_in.
  intros j Hj%in_seq. apply slot_store_other; [lia | ring_arith |].
  intros Heq. apply (Hout j); [lia | done].
Qed.

(** *** Enqueue appends, dequeue takes the head *)

Lemma contents_emplace v q q' :
  wf N q → emplace N v q = (true, q') → contents dflt N q' = contents dflt N q ++ [v].
Proof.
  intros Hq He.
  destruct (full N q) eqn:Hfull.
  { rewrite emplace_full in He by done. done. }
  destruct (emplace_not_full v q Hq Hfull) as (q1 & He1 & Hit & Hrd & Hwr).
  rewrite He in He1. simplify_eq.
  rewrite !contents_window, Hit, Hrd, Hwr.
  destruct Hq as [Hi Hr Hw Hrc Hwc Hp Hc].
  unfold full in Hfull. rewrite next_index_val in Hfull |- * by done.
  set (r := readIndex_ (reader_ q)) in *.
  set (w := writeIndex_ (writer_ q)) in *.
  assert (Z.to_nat (dist N r (if w + 1 =? N then 0 else w + 1))
          = S (Z.to_nat (dist N r w))) as -> by ring_arith.
  rewrite window_snoc. f_equal.
  - apply window_store; [done..|]. intros j Hj. ring_arith.
  - f_equal. rewrite Z2Nat.id by ring_arith.
    replace (ring_index N r (dist N r w)) with w by ring_arith.
    by apply slot_store_same.
Qed.

Lemma contents_pop v q q' :
  wf N q → pop dflt moved_from N q = (Some v, q') → contents dflt N q = v :: contents dflt N q'.
Proof.
  intros Hq He.
  destruct (empty q) eqn:Hempty.
  { rewrite pop_empty in He by done. done. }
  destruct (pop_not_empty q Hq Hempty) as (q1 & He1 & Hit & Hrd & Hwr).
  rewrite He in He1. simplify_eq.
  rewrite !contents_window, Hit, Hrd, Hwr.
  destruct Hq as [Hi Hr Hw Hrc Hwc Hp Hc].
  unfold empty in Hempty.
  set (r := readIndex_ (reader_ q)) in *.
  set (w := writeIndex_ (writer_ q)) in *.
  assert (∃ n : nat, Z.to_nat (dist N r w) = S n
            ∧ Z.to_nat (dist N (next_index N r) w) = n
            ∧ Z.of_nat n < dist N r w < N) as (n & -> & -> & Hn).
  { exists (Z.to_nat (dist N r w - 1)). rewrite next_index_val by done. ring_arith. }
  rewrite window_cons by (done || lia). f_equal.
  symmetry. apply window_store; [by apply next_index_range | done |].
  intros j Hj. rewrite next_index_val by done. ring_arith.
Qed.

(** *** The effect of one call on [size] *)

Lemma size_emplace v q q' b :
  wf N q → emplace N v q = (b, q') →
  size N q' = if b then size N q + 1 else size N q.
Proof.
  intros Hq He. pose proof (wf_emplace v q Hq) as Hq'. rewrite He in Hq'.
  destruct b.
  - apply (contents_emplace v q q' Hq) in He as Hc.
    apply (f_equal length) in Hc. rewrite length_app in Hc. simpl in Hc.
    rewrite <- !length_contents by done. lia.
  - destruct (full N q) eqn:Hfull.
    + rewrite emplace_full in He by done. by simplify_eq.
    + destruct (emplace_not_full v q Hq Hfull) as (? & ? & _). congruence.
Qed.

Lemma size_pop q q' r :
  wf N q → pop dflt moved_from N q = (r, q') →
  size N q' = match r with Some _ => size N q - 1 | None => size N q end.
Proof.
  intros Hq He. pose proof (wf_pop q Hq) as Hq'. rewrite He in Hq'.
  destruct r as [v|].
  - apply (contents_pop v q q' Hq) in He as Hc.
    apply (f_equal length) in Hc. simpl in Hc.
    rewrite <- !length_contents by done. lia.
  - destruct (empty q) eqn:Hempty.
    + rewrite pop_empty in He by done. by simplify_eq.
    + destruct (pop_not_empty q Hq Hempty) as (? & ? & _). congruence.
Qed.

(** [pop()] leaves the indices [pop(item)] leaves. *)
Lemma pop_discard_indices q :
  reader_ (pop_discard N q).2 = reader_ (pop dflt moved_from N q).2
  ∧ writer_ (pop_discard N q).2 = writer_ (pop dflt moved_from N q).2.
Proof.
  unfold pop_discard, pop, move_out. repeat case_match; simplify_eq/=; done.
Qed.

Lemma size_indices (q1 q2 : queue) :
  reader_ q1 = reader_ q2 → writer_ q1 = writer_ q2 → size N q1 = size N q2.
Proof. unfold size. by intros -> ->. Qed.

Lemma size_pop_discard q q' b :
  wf N q → pop_discard N q = (b, q') →
  size N q' = if b then size N q - 1 else size N q.
Proof.
  intros Hq He.
  pose proof (pop_discard_pop q) as Hb. pose proof (pop_discard_indices q) as [Hrd Hwr].
  rewrite He in Hb, Hrd, Hwr. simpl in *.
  destruct (pop dflt moved_from N q) as [r q2] eqn:Hpop. simpl in *.
  rewrite (size_indices q' q2) by done.
  rewrite (size_pop q q2 r) by done.
  destruct r; subst b; done.
Qed.

Lemma pop_discard_empty q : wf N q → empty q = true → pop_discard N q = (false, q).
Proof.
  intros [Hi Hr Hw Hrc Hwc Hp Hc]. break_queue q.
  unfold empty, pop_discard; simpl.
  intros Hempty. repeat case_match; simplify_eq/=; try done; ring_arith.
Qed.

Lemma pop_discard_not_empty q :
  wf N q → empty q = false →
  ∃ q', pop_discard N q = (true, q')
    ∧ (∀ fuel, force_pop_discard N (S fuel) q = Some q')
    ∧ items_ q' = items_ q
    ∧ wf N q'
    ∧ contents dflt N q
      = slot dflt (items_ q) (readIndex_ (reader_ q)) :: contents dflt N q'.
Proof.
  intros Hq Hempty.
  destruct (pop_not_empty q Hq Hempty) as (q1 & Hpop & Hit & Hrd & Hwr).
  destruct (pop_discard N q) as [b q'] eqn:Hd.
  pose proof (pop_discard_pop q) as Hb. rewrite Hd, Hpop in Hb. simpl in Hb.
  pose proof (pop_discard_indices q) as [Hr' Hw']. rewrite Hd, Hpop in Hr', Hw'.
  pose proof (wf_pop_discard q Hq) as Hq'. rewrite Hd in Hq'.
  simpl in *. subst b. exists q'.
  assert (items_ q' = items_ q) as Hitems.
  { replace q' with (pop_discard N q).2 by (by rewrite Hd).
    unfold pop_discard. repeat case_match; done. }
  split_and!; try done.
  - intros fuel. unfold force_pop_discard. rewrite spin_until_data_val.
    revert Hd. unfold pop_discard. simpl. repeat case_match; naive_solver.
  - rewrite (contents_pop _ q q1 Hq Hpop). f_equal.
    rewrite !contents_window, Hr', Hw', Hitems, Hit.
    destruct Hq as [Hi Hr Hw Hrc Hwc Hp Hc]. unfold empty in Hempty.
    rewrite Hrd, Hwr.
    apply window_store; [by apply next_index_range | done |].
    intros j Hj. rewrite next_index_val in Hj |- * by done. ring_arith.
Qed.

(** *** [consume_one] with any callback *)

Lemma wf_set_item q i v : wf N q → wf N (set_item q i v).
Proof.
  intros [Hi Hr Hw Hrc Hwc Hp Hc]. split; simpl; try done.
  unfold store. by rewrite length_insert.
Qed.

Lemma wf_consume_one {A} (func : T → A → T * A) q a :
  wf N q → wf N (consume_one dflt N func q a).1.2.
Proof.
  intros Hq. rewrite consume_one_pop_discard. simpl.
  pose proof (wf_pop_discard q Hq) as Hd.
  destruct (pop_discard N q) as [[] q']; simpl in *; [|done].
  by apply wf_set_item.
Qed.

Lemma consume_one_empty {A} (func : T → A → T * A) q a :
  wf N q → empty q = true → consume_one dflt N func q a = (false, q, a).
Proof.
  intros Hq Hempty. rewrite consume_one_pop_discard. simpl.
  by rewrite pop_discard_empty.
Qed.

(** On a non-empty queue the callback is applied to the element at the
    read index; the queue is left with the indices [pop] leaves and with
    the callback's leavings in the slot that was read. *)
Lemma consume_one_not_empty {A} (func : T → A → T * A) q a :
  wf N q → empty q = false →
  ∃ q',
    consume_one dflt N func q a
    = (true, q', (func (slot dflt (items_ q) (readIndex_ (reader_ q))) a).2)
    ∧ items_ q'
      = store (items_ q) (readIndex_ (reader_ q))
          (func (slot dflt (items_ q) (readIndex_ (reader_ q))) a).1
    ∧ reader_ q' = reader_ (pop dflt moved_from N q).2
    ∧ writer_ q' = writer_ (pop dflt moved_from N q).2
    ∧ wf N q'
    ∧ contents dflt N q
      = slot dflt (items_ q) (readIndex_ (reader_ q)) :: contents dflt N q'.
Proof.
  intros Hq Hempty. rewrite consume_one_pop_discard. simpl.
  destruct (pop_discard_not_empty q Hq Hempty) as (qd & Hd & _ & Hit & Hqd & Hc).
  destruct (pop_not_empty q Hq Hempty) as (qp & Hpop & _ & Hrd & Hwr).
  pose proof (pop_discard_indices q) as [Hr' Hw']. rewrite Hd, Hpop in Hr', Hw'.
  rewrite Hd, Hpop. simpl in *.
  set (r := readIndex_ (reader_ q)) in *.
  set (res := func (slot dflt (items_ q) r) a).
  exists (set_item qd r res.1). split_and!; try done.
  - simpl. by rewrite Hit.
  - by apply wf_set_item.
  - rewrite Hc. f_equal. rewrite !contents_window. simpl.
    rewrite Hr', Hw', Hrd, Hwr. symmetry.
    destruct Hq as [Hi Hr Hw Hrc Hwc Hp Hcv]. unfold empty in Hempty.
    apply window_store; [by apply next_index_range | done |].
    intros j Hj. fold r in Hr, Hp, Hcv, Hempty.
    rewrite next_index_val in Hj |- * by done. ring_arith.
Qed.

Lemma size_consume_one {A} (func : T → A → T * A) q a :
  wf N q →
  size N (consume_one dflt N func q a).1.2
  = if (consume_one dflt N func q a).1.1 then size N q - 1 else size N q.
Proof.
  intros Hq. destruct (empty q) eqn:Hempty.
  - by rewrite consume_one_empty.
  - destruct (consume_one_not_empty func q a Hq Hempty)
      as (q' & -> & _ & _ & _ & Hq' & Hc). simpl.
    apply (f_equal length) in Hc. simpl in Hc.
    rewrite <- !length_contents by done. lia.
Qed.

(** *** The consume loops *)

(** [consume_all] with enough fuel: the counter rises by the number of
    live elements, the callback has been applied to each of them, oldest
    first, and the queue is empty.  With less fuel the loop has not
    finished. *)
Lemma consume_all_loop_val {A} (func : T → A → T * A) fuel q a n :
  wf N q → 0 ≤ n → n + size N q < 2 ^ 64 →
  if decide (length (contents dflt N q) < fuel)%nat then
    ∃ q', consume_all_loop dflt N fuel func q a n
          = Some (n + size N q, q',
                  fold_left (λ acc v, (func v acc).2) (contents dflt N q) a)
      ∧ wf N q' ∧ empty q' = true
  else consume_all_loop dflt N fuel func q a n = None.
Proof.
  revert q a n. induction fuel as [|fuel IH]; intros q a n Hq Hn Hbound.
  { case_decide; [lia | done]. }
  simpl.
  destruct (empty q) eqn:Hempty.
  - rewrite consume_one_empty by done.
    apply empty_size in Hempty as Hsz; [|done].
    pose proof (length_contents q Hq) as Hlen.
    destruct (contents dflt N q); [|simpl in Hlen; lia].
    rewrite decide_True by (simpl; lia).
    exists q. rewrite Hsz, Z.add_0_r. done.
  - destruct (consume_one_not_empty func q a Hq Hempty)
      as (q1 & -> & _ & _ & _ & Hq1 & Hc).
    assert (size N q1 = size N q - 1) as Hs.
    { apply (f_equal length) in Hc. simpl in Hc.
      rewrite <- !length_contents by done. lia. }
    pose proof (size_range q1 Hq1).
    rewrite (wrap_small (n + 1)) by lia.
    specialize (IH q1 (func (slot dflt (items_ q) (readIndex_ (reader_ q))) a).2
                  (n + 1) Hq1 ltac:(lia) ltac:(lia)).
    rewrite Hc. simpl.
    destruct (decide (length (contents dflt N q1) < fuel)%nat).
    + rewrite decide_True by lia.
      destruct IH as (q' & -> & ? & ?). exists q'.
      split_and!; [|done..]. do 3 f_equal. lia.
    + rewrite decide_False by lia. done.
Qed.

Lemma consume_n_loop_inv {A} (func : T → A → T * A) fuel q a m n m' q' a' :
  wf N q → 0 ≤ m → n < 2 ^ 64 →
  consume_n_loop dflt N fuel func q a m n = Some (m', q', a') →
  wf N q' ∧ m ≤ m' ∧ size N q' = size N q - (m' - m).
Proof.
  revert q a m. induction fuel as [|fuel IH]; intros q a m Hq Hm Hn; simpl.
  - destruct (Z.ltb_spec m n); intros; simplify_eq. split_and!; [done|lia..].
  - destruct (Z.ltb_spec m n); [|intros; simplify_eq; split_and!; [done|lia..]].
    pose proof (wf_consume_one func q a Hq) as Hq1.
    pose proof (size_consume_one func q a Hq) as Hs.
    destruct (consume_one dflt N func q a) as [[b q1] a1]. simpl in *.
    destruct b.
    + rewrite (wrap_small (m + 1)) by lia. intros Hrec.
      apply IH in Hrec as (? & ? & ?); [|done|lia|done].
      split_and!; [done|lia..].
    + intros; simplify_eq. split_and!; [done|lia..].
Qed.

(** *** Every call keeps the invariant and the observer's count *)

Lemma step_inv fuel o q q' r :
  wf N q → step dflt moved_from N fuel o q = Some (q', r) →
  wf N q' ∧ size N q' = count_after (size N q) r.
Proof.
  intros Hq Hstep. destruct o; simpl in Hstep.
  - destruct (emplace N v q) as [b q1] eqn:He. simplify_eq.
    pose proof (wf_emplace v q Hq) as Hq1. rewrite He in Hq1.
    split; [done|]. rewrite (size_emplace v q q' b) by done. by destruct b.
  - unfold push in Hstep.
    destruct (emplace N v q) as [b q1] eqn:He. simplify_eq.
    pose proof (wf_emplace v q Hq) as Hq1. rewrite He in Hq1.
    split; [done|]. rewrite (size_emplace v q q' b) by done. by destruct b.
  - destruct (force_emplace N fuel v q) as [q1|] eqn:He; simplify_eq/=.
    apply force_emplace_returns in He.
    pose proof (wf_emplace v q Hq) as Hq1. rewrite He in Hq1.
    split; [done|]. by rewrite (size_emplace v q q' true).
  - unfold force_push in Hstep.
    destruct (force_emplace N fuel v q) as [q1|] eqn:He; simplify_eq/=.
    apply force_emplace_returns in He.
    pose proof (wf_emplace v q Hq) as Hq1. rewrite He in Hq1.
    split; [done|]. by rewrite (size_emplace v q q' true).
  - destruct (pop dflt moved_from N q) as [res q1] eqn:He. simplify_eq.
    pose proof (wf_pop q Hq) as Hq1. rewrite He in Hq1.
    split; [done|]. rewrite (size_pop q q' res) by done. by destruct res.
  - destruct (pop_discard N q) as [b q1] eqn:He. simplify_eq.
    pose proof (wf_pop_discard q Hq) as Hq1. rewrite He in Hq1.
    split; [done|]. rewrite (size_pop_discard q q' b) by done. by destruct b.
  - destruct (force_pop dflt moved_from N fuel q) as [[v q1]|] eqn:He; simplify_eq/=.
    apply force_pop_returns in He.
    pose proof (wf_pop q Hq) as Hq1. rewrite He in Hq1.
    split; [done|]. by rewrite (size_pop q q' (Some v)).
  - destruct (force_pop_discard N fuel q) as [q1|] eqn:He; simplify_eq/=.
    apply force_pop_discard_returns in He.
    pose proof (wf_pop_discard q Hq) as Hq1. rewrite He in Hq1.
    split; [done|]. by rewrite (size_pop_discard q q' true).
  - pose proof (wf_consume_one (leaving leave ignore) q tt Hq) as Hq1.
    pose proof (size_consume_one (leaving leave ignore) q tt Hq) as Hs.
    destruct (consume_one dflt N (leaving leave ignore) q tt) as [[b q1] u].
    simplify_eq/=. split; [done|]. rewrite Hs. by destruct b.
  - unfold consume_all in Hstep.
    pose proof (size_range q Hq). pose proof pow2_range.
    pose proof (consume_all_loop_val (leaving leave ignore) fuel q tt 0 Hq
                  ltac:(lia) ltac:(lia)) as Hall.
    case_decide; [|by rewrite Hall in Hstep].
    destruct Hall as (q1 & Hall & Hq1 & Hempty). rewrite Hall in Hstep.
    simplify_eq/=. split; [done|].
    apply empty_size in Hempty; [lia|done].
  - unfold consume_n in Hstep.
    destruct (consume_n_loop dflt N fuel (leaving leave ignore) q tt 0 (wrap n))
      as [[[m q1] a1]|] eqn:Hn; simplify_eq/=.
    apply consume_n_loop_inv in Hn as (? & ? & ?); [|done|lia|].
    + split; [done|lia].
    + unfold wrap, size_t_modulus. apply Z.mod_pos_bound. lia.
  - simplify_eq. split; [by apply wf_reset|].
    rewrite size_val by (by apply wf_reset). simpl. ring_arith.
Qed.

Lemma wf_reachable q : reachable dflt moved_from N q → wf N q.
Proof.
  induction 1 as [|fuel o q q' r _ IH Hstep
                  |A func a q _ IH
                  |A fuel func a q n q' a' _ IH Hall
                  |A fuel func limit a q m q' a' _ IH Hn].
  - apply wf_fresh.
  - by apply (step_inv fuel o q q' r).
  - by apply wf_consume_one.
  - unfold consume_all in Hall.
    pose proof (size_range q IH). pose proof pow2_range.
    pose proof (consume_all_loop_val func fuel q a 0 IH ltac:(lia) ltac:(lia)) as Hval.
    case_decide; [|by rewrite Hval in Hall].
    destruct Hval as (q1 & Hval & Hq1 & _). rewrite Hval in Hall. by simplify_eq.
  - unfold consume_n in Hn.
    apply consume_n_loop_inv in Hn as (? & _); [done | done | lia |].
    unfold wrap, size_t_modulus. apply Z.mod_pos_bound. lia.
Qed.

Lemma run_inv fuel ops q live q' live' :
  wf N q → size N q = live →
  run dflt moved_from N fuel ops q live = Some (q', live') →
  wf N q' ∧ size N q' = live'.
Proof.
  revert q live. induction ops as [|o ops IH]; intros q live Hq Hlive; simpl.
  - intros; by simplify_eq.
  - destruct (step dflt moved_from N fuel o q) as [[q1 r]|] eqn:Hstep; [|done].
    apply step_inv in Hstep as [Hq1 Hs]; [|done].
    apply IH; [done|]. by rewrite Hs, Hlive.
Qed.

(** *** Sequences of enqueues and of dequeues *)

Lemma contents_nil q : wf N q → empty q = true → contents dflt N q = [].
Proof.
  intros Hq Hempty. apply empty_size in Hempty; [|done].
  pose proof (length_contents q Hq) as Hlen.
  destruct (contents dflt N q); [done | simpl in Hlen; lia].
Qed.


Lemma emplace_all_val vs q q' :
  wf N q → emplace_all N vs q = Some q' →
  wf N q' ∧ contents dflt N q' = contents dflt N q ++ vs.
Proof.
  revert q. induction vs as [|v vs IH]; intros q Hq; simpl.
  - intros; simplify_eq. by rewrite app_nil_r.
  - destruct (emplace N v q) as [[] q1] eqn:He; [|done]. intros Hall.
    pose proof (wf_emplace v q Hq) as Hq1. rewrite He in Hq1.
    apply IH in Hall as [? ->]; [|done].
    rewrite (contents_emplace v q q1), <- app_assoc by done. done.
Qed.

Lemma emplace_all_fits vs q :
  wf N q → size N q + Z.of_nat (length vs) ≤ N - 1 →
  ∃ q', emplace_all N vs q = Some q'.
Proof.
  revert q. induction vs as [|v vs IH]; intros q Hq Hfit; simpl in *; [eauto|].
  destruct (full N q) eqn:Hfull.
  { apply full_size in Hfull; [lia|done]. }
  destruct (emplace_not_full v q Hq Hfull) as (q1 & He & _). rewrite He.
  pose proof (wf_emplace v q Hq) as Hq1. rewrite He in Hq1.
  apply IH; [done|]. rewrite (size_emplace v q q1 true) by done. lia.
Qed.

Lemma pop_all_val k q outs q' :
  wf N q → pop_all dflt moved_from N k q = Some (outs, q') →
  wf N q' ∧ contents dflt N q = outs ++ contents dflt N q' ∧ length outs = k.
Proof.
  revert q outs. induction k as [|k IH]; intros q outs Hq; simpl.
  - intros; by simplify_eq.
  - destruct (pop dflt moved_from N q) as [[v|] q1] eqn:He; [|done].
    pose proof (wf_pop q Hq) as Hq1. rewrite He in Hq1.
    destruct (pop_all dflt moved_from N k q1) as [[vs q2]|] eqn:Hall; [|done].
    intros; simplify_eq.
    apply IH in Hall as (? & Hc & ?); [|done].
    rewrite (contents_pop v q q1), Hc by done. simpl. auto.
Qed.

Lemma next_index_masked x : 0 ≤ next_index N x < N.
Proof.
  pose proof pow2_range. unfold next_index. rewrite mask_val.
  assert (0 ≤ wrap (x + 1)).
  { unfold wrap, size_t_modulus. apply Z.mod_pos_bound. lia. }
  rewrite land_mask by done. apply Z.mod_pos_bound. lia.
Qed.



(** The state a sequence of calls ends in is reachable from the state it
    starts in. *)
Lemma reachable_run fuel ops q live q' live' :
  reachable dflt moved_from N q →
  run dflt moved_from N fuel ops q live = Some (q', live') →
  reachable dflt moved_from N q'.
Proof.
  revert q live. induction ops as [|o ops IH]; intros q live Hq; simpl.
  - intros; by simplify_eq.
  - destruct (step dflt moved_from N fuel o q) as [[q1 r]|] eqn:Hstep; [|done].
    apply IH. by eapply reachable_step.
Qed.

(** ** The properties of the specification *)

(** C1: first in, first out.  From an empty queue, when every enqueue of a
    sequence of values succeeds and the [k] dequeues that follow succeed,
    the dequeues return the first [k] of those values, in the order they
    were enqueued. *)
Theorem fifo_order q0 vs q1 k outs q2 :
  reachable dflt moved_from N q0 → empty q0 = true →
  emplace_all N vs q0 = Some q1 →
  pop_all dflt moved_from N k q1 = Some (outs, q2) →
  outs = take k vs ∧ (k ≤ length vs)%nat.
Proof.
  intros Hq0%wf_reachable Hempty Hin Hout.
  apply emplace_all_val in Hin as [Hq1 Hc1]; [|done].
  rewrite (contents_nil q0) in Hc1 by done. simpl in Hc1.
  apply pop_all_val in Hout as (_ & Hc & Hlen); [|done].
  rewrite Hc1 in Hc. rewrite Hc, <- Hlen, take_app_length, length_app.
  split; [done|lia].
Qed.

(** C2: a freshly constructed queue is empty and of size zero; it accepts
    [N - 1] enqueues in a row, is then full, and refuses the next one;
    [capacity()] is [N - 1]. *)
Theorem fresh_queue_capacity :
  empty (fresh dflt N) = true
  ∧ size N (fresh dflt N) = 0
  ∧ capacity N = N - 1
  ∧ ∀ vs : list T, Z.of_nat (length vs) = N - 1 →
      ∃ q', emplace_all N vs (fresh dflt N) = Some q'
        ∧ full N q' = true
        ∧ ∀ v, emplace N v q' = (false, q').
Proof.
  pose proof wf_fresh as Hf.
  assert (size N (fresh dflt N) = 0) as Hs.
  { apply empty_size; done. }
  split_and!; [done | done | apply capacity_val |].
  intros vs Hlen.
  destruct (emplace_all_fits vs (fresh dflt N) Hf) as [q' Hall]; [lia|].
  exists q'. split; [done|].
  apply emplace_all_val in Hall as [Hq' Hc]; [|done].
  assert (full N q' = true) as Hfull.
  { apply full_size; [done|]. rewrite <- length_contents, Hc by done.
    rewrite length_app, (contents_nil (fresh dflt N)) by done. simpl. lia. }
  split; [done|]. intros v. by apply emplace_full.
Qed.

(** C3: after any sequence of calls on a constructed queue, [size()] is the
    number of elements enqueued and not yet dequeued, as counted from what
    the calls reported, and it is [write - read] when [write >= read] and
    [(N - read) + write] otherwise. *)
Theorem size_counts_live fuel ops q live :
  run dflt moved_from N fuel ops (fresh dflt N) 0 = Some (q, live) →
  size N q = live
  ∧ size N q =
      (let w := writeIndex_ (writer_ q) in
       let r := readIndex_ (reader_ q) in
       if r <=? w then w - r else (N - r) + w).
Proof.
  intros Hrun. apply run_inv in Hrun as [Hq Hs].
  - split; [done|]. by rewrite size_val.
  - apply wf_fresh.
  - apply empty_size; [apply wf_fresh | done].
Qed.

(** C4: on a full queue [emplace] and [push] return [false] and leave the
    queue as it was; on an empty queue [pop] returns [false] and leaves the
    queue as it was. *)
Theorem failed_call_no_change q :
  reachable dflt moved_from N q →
  (full N q = true → ∀ v, emplace N v q = (false, q) ∧ push N v q = (false, q))
  ∧ (empty q = true →
       pop dflt moved_from N q = (None, q) ∧ pop_discard N q = (false, q)).
Proof.
  intros Hq%wf_reachable. split.
  - intros Hfull v. unfold push. by rewrite emplace_full.
  - intros Hempty. by rewrite pop_empty, pop_discard_empty.
Qed.


(** C8: on a queue holding [k] elements [consume_all] returns (with any
    fuel above [k]), invokes the callback once per element, oldest first,
    returns [k] and leaves the queue empty.  The elements held are the
    values enqueued since the queue was last empty, in that order. *)
Theorem consume_all_drains {A : Type} (func : T → A → T * A) (a : A) q fuel :
  reachable dflt moved_from N q →
  (length (contents dflt N q) < fuel)%nat →
  (∃ q',
     consume_all dflt N fuel func q a
     = Some (size N q, q',
             fold_left (λ acc v, (func v acc).2) (contents dflt N q) a)
     ∧ empty q' = true)
  ∧ Z.of_nat (length (contents dflt N q)) = size N q
  ∧ (∀ q0 vs, reachable dflt moved_from N q0 → empty q0 = true →
       emplace_all N vs q0 = Some q → contents dflt N q = vs).
Proof.
  intros Hq%wf_reachable Hfuel. split_and!.
  - pose proof (size_range q Hq). pose proof pow2_range.
    pose proof (consume_all_loop_val func fuel q a 0 Hq ltac:(lia) ltac:(lia)) as Hall.
    rewrite decide_True in Hall by done.
    destruct Hall as (q' & Hall & _ & Hempty). exists q'. split; [|done].
    unfold consume_all. rewrite Hall. by rewrite Z.add_0_l.
  - by apply length_contents.
  - intros q0 vs Hq0%wf_reachable Hempty Hall.
    apply emplace_all_val in Hall as [_ ->]; [|done].
    by rewrite (contents_nil q0).
Qed.

(** C9: a blocking call that returns has succeeded: [force_emplace] and
    [force_push] leave the state a successful [emplace] leaves,
    [force_pop(item)] yields the value and the state a successful
    [pop(item)] yields, [force_pop()] leaves the state a successful [pop()]
    leaves.  On a queue that is not full the blocking enqueues return, and
    on a queue that is not empty both blocking dequeues return, having
    taken the oldest element. *)
Theorem force_calls_succeed q :
  reachable dflt moved_from N q →
  (∀ fuel v q',
     force_emplace N fuel v q = Some q' ∨ force_push N fuel v q = Some q' →
     emplace N v q = (true, q'))
  ∧ (∀ fuel v q',
       force_pop dflt moved_from N fuel q = Some (v, q') →
       pop dflt moved_from N q = (Some v, q'))
  ∧ (∀ fuel q',
       force_pop_discard N fuel q = Some q' → pop_discard N q = (true, q'))
  ∧ (full N q = false → ∀ fuel v,
       ∃ q', force_emplace N (S fuel) v q = Some q'
         ∧ force_push N (S fuel) v q = Some q'
         ∧ emplace N v q = (true, q')
         ∧ contents dflt N q' = contents dflt N q ++ [v])
  ∧ (empty q = false → ∀ fuel,
       ∃ v q', force_pop dflt moved_from N (S fuel) q = Some (v, q')
         ∧ pop dflt moved_from N q = (Some v, q')
         ∧ contents dflt N q = v :: contents dflt N q')
  ∧ (empty q = false → ∀ fuel,
       ∃ v q', force_pop_discard N (S fuel) q = Some q'
         ∧ pop_discard N q = (true, q')
         ∧ (pop dflt moved_from N q).1 = Some v
         ∧ contents dflt N q = v :: contents dflt N q').
Proof.
  intros Hq%wf_reachable. split_and!.
  - intros fuel v q' [H|H]; by apply force_emplace_returns in H.
  - intros fuel v q'. apply force_pop_returns.
  - intros fuel q'. apply force_pop_discard_returns.
  - intros Hfull fuel v.
    destruct (emplace_not_full v q Hq Hfull) as (q' & He & _).
    exists q'. unfold force_push. rewrite force_emplace_of_emplace, He.
    split_and!; try done. by apply contents_emplace.
  - intros Hempty fuel.
    destruct (pop_not_empty q Hq Hempty) as (q' & Hpop & _).
    eexists _, q'. rewrite force_pop_of_pop, Hpop.
    split_and!; try done. by apply contents_pop.
  - intros Hempty fuel.
    destruct (pop_discard_not_empty q Hq Hempty) as (q' & Hd & Hf & _ & _ & Hc).
    destruct (pop_not_empty q Hq Hempty) as (qp & Hpop & _).
    eexists _, q'. rewrite Hpop. split_and!; done.
Qed.

(** C10: in every state a constructed queue can reach, the write index and
    the read index are below [N], as is every index the masking produces,
    and [size()] lies between [0] and [N - 1]. *)
Theorem indices_below_N q :
  reachable dflt moved_from N q →
  0 ≤ writeIndex_ (writer_ q) < N
  ∧ 0 ≤ readIndex_ (reader_ q) < N
  ∧ 0 ≤ size N q ≤ N - 1
  ∧ ∀ idx, 0 ≤ next_index N idx < N.
Proof.
  intros Hq%wf_reachable. pose proof (size_range q Hq).
  destruct Hq. do 3 (split; [done|]). apply next_index_masked.
Qed.


(** ** Further properties of the queue *)

(** *** The decision taken on the cached index is the right one *)

Lemma emplace_decision v q : wf N q → (emplace N v q).1 = negb (full N q).
Proof.
  intros Hq. destruct (full N q) eqn:Hfull.
  - by rewrite emplace_full.
  - destruct (emplace_not_full v q Hq Hfull) as (q' & -> & _). done.
Qed.

Lemma pop_decision q :
  wf N q → (pop dflt moved_from N q).1 = None ↔ empty q = true.
Proof.
  intros Hq. destruct (empty q) eqn:Hempty.
  - by rewrite pop_empty.
  - destruct (pop_not_empty q Hq Hempty) as (q' & -> & _). done.
Qed.

(** X1: In every reachable state [emplace] and [push] succeed exactly when
    [full()] is false, and [pop(item)], [pop()] and [consume_one] succeed
    exactly when [empty()] is false: the stale cached index never makes a
    call refuse while there is room or data, nor accept when there is
    none. *)
Theorem calls_agree_with_queries {A : Type} (func : T → A → T * A) (a : A) v q :
  reachable dflt moved_from N q →
  (emplace N v q).1 = negb (full N q)
  ∧ (push N v q).1 = negb (full N q)
  ∧ (is_Some (pop dflt moved_from N q).1 ↔ empty q = false)
  ∧ (pop_discard N q).1 = negb (empty q)
  ∧ (consume_one dflt N func q a).1.1 = negb (empty q).
Proof.
  intros Hq%wf_reachable.
  pose proof (pop_decision q Hq) as Hpop.
  split_and!.
  - by apply emplace_decision.
  - by apply emplace_decision.
  - rewrite <- not_true_iff_false, <- Hpop, <- not_eq_None_Some. done.
  - rewrite pop_discard_pop.
    destruct (empty q) eqn:Hempty.
    + rewrite pop_empty by done. done.
    + destruct (pop_not_empty q Hq Hempty) as (q' & -> & _). done.
  - destruct (empty q) eqn:Hempty.
    + rewrite consume_one_empty by done. done.
    + destruct (consume_one_not_empty func q a Hq Hempty) as (q' & -> & _). done.
Qed.

(** *** Who writes what *)

(** X2: The producer's calls never write the reader state and the consumer's
    calls never write the writer state, in whatever state they are made:
    each index and each cache has one writer. *)
Theorem producer_consumer_frame {A : Type} (func : T → A → T * A) (a : A) v q :
  reader_ (emplace N v q).2 = reader_ q
  ∧ reader_ (push N v q).2 = reader_ q
  ∧ writer_ (pop dflt moved_from N q).2 = writer_ q
  ∧ writer_ (pop_discard N q).2 = writer_ q
  ∧ writer_ (consume_one dflt N func q a).1.2 = writer_ q
  ∧ (∀ fuel q', force_emplace N fuel v q = Some q' → reader_ q' = reader_ q)
  ∧ (∀ fuel w q', force_pop dflt moved_from N fuel q = Some (w, q') →
       writer_ q' = writer_ q)
  ∧ (∀ fuel q', force_pop_discard N fuel q = Some q' → writer_ q' = writer_ q).
Proof.
  assert (reader_ (emplace N v q).2 = reader_ q) as Hre.
  { unfold emplace. repeat case_match; done. }
  assert (writer_ (pop dflt moved_from N q).2 = writer_ q) as Hwp.
  { unfold pop, move_out. repeat case_match; simplify_eq/=; done. }
  assert (writer_ (pop_discard N q).2 = writer_ q) as Hwd.
  { unfold pop_discard. repeat case_match; done. }
  split_and!; try done.
  - rewrite consume_one_pop_discard. simpl.
    destruct (pop_discard N q) as [[] q']; done.
  - intros fuel q' Hf%force_emplace_returns. by rewrite Hf in Hre.
  - intros fuel w q' Hf%force_pop_returns. by rewrite Hf in Hwp.
  - intros fuel q' Hf%force_pop_discard_returns. by rewrite Hf in Hwd.
Qed.

(** X3: In a reachable state a successful [emplace] writes the value into the
    slot at the write index and no other slot; a successful [pop(item)]
    leaves the slot at the read index in its moved-from state and touches
    no other slot; [pop()] and every failing call touch no slot. *)
Theorem slot_frame v q :
  reachable dflt moved_from N q →
  (full N q = false →
     slot dflt (items_ (emplace N v q).2) (writeIndex_ (writer_ q)) = v
     ∧ ∀ i, 0 ≤ i → i ≠ writeIndex_ (writer_ q) →
         slot dflt (items_ (emplace N v q).2) i = slot dflt (items_ q) i)
  ∧ (empty q = false →
       slot dflt (items_ (pop dflt moved_from N q).2) (readIndex_ (reader_ q))
       = moved_from (slot dflt (items_ q) (readIndex_ (reader_ q)))
       ∧ ∀ i, 0 ≤ i → i ≠ readIndex_ (reader_ q) →
           slot dflt (items_ (pop dflt moved_from N q).2) i = slot dflt (items_ q) i)
  ∧ items_ (pop_discard N q).2 = items_ q
  ∧ (full N q = true → items_ (emplace N v q).2 = items_ q)
  ∧ (empty q = true → items_ (pop dflt moved_from N q).2 = items_ q).
Proof.
  intros Hq%wf_reachable. split_and!.
  - intros Hfull.
    destruct (emplace_not_full v q Hq Hfull) as (q' & He & Hit & _).
    rewrite He. simpl. rewrite Hit.
    destruct Hq. split.
    + by apply slot_store_same.
    + intros i Hi Hne. apply slot_store_other; [lia | done | done].
  - intros Hempty.
    destruct (pop_not_empty q Hq Hempty) as (q' & He & Hit & _).
    rewrite He. simpl. rewrite Hit.
    destruct Hq. split.
    + by apply slot_store_same.
    + intros i Hi Hne. apply slot_store_other; [lia | done | done].
  - unfold pop_discard. repeat case_match; done.
  - intros Hfull. by rewrite emplace_full.
  - intros Hempty. by rewrite pop_empty.
Qed.


(** *** Blocking calls that cannot be served *)

(** X4: On a full queue [force_emplace] and [force_push] never return, and on
    an empty queue [force_pop(item)] and [force_pop()] never return,
    however long they spin: nobody else moves the other index. *)
Theorem force_calls_block q :
  reachable dflt moved_from N q →
  (full N q = true → ∀ fuel v,
     force_emplace N fuel v q = None ∧ force_push N fuel v q = None)
  ∧ (empty q = true → ∀ fuel,
       force_pop dflt moved_from N fuel q = None
       ∧ force_pop_discard N fuel q = None).
Proof.
  intros Hq%wf_reachable. split.
  - intros Hfull fuel v. unfold force_push.
    destruct (force_emplace N fuel v q) as [q'|] eqn:Hf; [|done].
    apply force_emplace_returns in Hf. rewrite emplace_full in Hf by done. done.
  - intros Hempty fuel. split.
    + destruct (force_pop dflt moved_from N fuel q) as [[v q']|] eqn:Hf; [|done].
      apply force_pop_returns in Hf. rewrite pop_empty in Hf by done. done.
    + destruct (force_pop_discard N fuel q) as [q'|] eqn:Hf; [|done].
      apply force_pop_discard_returns in Hf.
      rewrite pop_discard_empty in Hf by done. done.
Qed.

(** *** The queries agree with one another *)

(** X5: In every reachable state [empty()] holds exactly when [size()] is zero,
    [full()] exactly when [size()] equals [capacity()], [read_available()]
    is [size()], and a queue of two or more slots is never empty and full
    at once. *)
Theorem queries_consistent q :
  reachable dflt moved_from N q →
  (empty q = true ↔ size N q = 0)
  ∧ (full N q = true ↔ size N q = capacity N)
  ∧ read_available N q = size N q
  ∧ (2 ≤ N → ¬ (empty q = true ∧ full N q = true)).
Proof.
  intros Hq%wf_reachable. split_and!.
  - by apply empty_size.
  - rewrite capacity_val. by apply full_size.
  - done.
  - intros HN2 [He Hf].
    apply empty_size in He; [|done]. apply full_size in Hf; [|done]. lia.
Qed.

(** X6: With a single slot the queue can never hold an element: it is empty and
    full in every reachable state, its capacity is zero and every enqueue
    is refused. *)
Theorem single_slot_queue_holds_nothing q :
  N = 1 → reachable dflt moved_from N q →
  capacity N = 0 ∧ empty q = true ∧ full N q = true
  ∧ ∀ v, emplace N v q = (false, q).
Proof.
  intros HN1 Hq%wf_reachable. pose proof (size_range q Hq) as Hs.
  assert (empty q = true) as He by (apply empty_size; [done | lia]).
  assert (full N q = true) as Hf by (apply full_size; [done | lia]).
  split_and!; [rewrite capacity_val; lia | done | done |].
  intros v. by apply emplace_full.
Qed.

(** *** [reset] *)

(** X7: [reset] on any reachable queue leaves the slots as they are, sets the
    four indices to zero, so that the queue is empty, and gives back the
    whole capacity: any [N - 1] enqueues in a row then succeed and are held
    in order. *)
Theorem reset_restores q :
  reachable dflt moved_from N q →
  items_ (reset q) = items_ q
  ∧ reader_ (reset q) = mkReadState 0 0
  ∧ writer_ (reset q) = mkWriteState 0 0
  ∧ empty (reset q) = true
  ∧ size N (reset q) = 0
  ∧ (∀ vs : list T, Z.of_nat (length vs) = N - 1 →
       ∃ q', emplace_all N vs (reset q) = Some q'
         ∧ full N q' = true ∧ contents dflt N q' = vs).
Proof.
  intros Hq%wf_reachable. pose proof (wf_reset q Hq) as Hr.
  assert (empty (reset q) = true) as He by done.
  assert (size N (reset q) = 0) as Hs by (by apply empty_size).
  split_and!; try done.
  intros vs Hlen.
  destruct (emplace_all_fits vs (reset q) Hr) as [q' Hall]; [lia|].
  exists q'. split; [done|].
  apply emplace_all_val in Hall as [Hq' Hc]; [|done].
  rewrite (contents_nil (reset q)) in Hc by done. simpl in Hc.
  split; [|done]. apply full_size; [done|].
  rewrite <- length_contents, Hc by done. lia.
Qed.

(** *** [pop()] and [force_pop()] *)


(** X8: On a non-empty reachable queue [pop()] returns [true] and
    [force_pop()] returns; both remove exactly the oldest element, leave
    every slot as it was and end in the same state. *)
Theorem pop_discard_drops_oldest q :
  reachable dflt moved_from N q → empty q = false →
  ∃ q', pop_discard N q = (true, q')
    ∧ (∀ fuel, force_pop_discard N (S fuel) q = Some q')
    ∧ items_ q' = items_ q
    ∧ contents dflt N q
      = slot dflt (items_ q) (readIndex_ (reader_ q)) :: contents dflt N q'.
Proof.
  intros Hq%wf_reachable Hempty.
  destruct (pop_discard_not_empty q Hq Hempty) as (q' & ? & ? & ? & _ & ?).
  by exists q'.
Qed.

(** *** The cached indices *)

(** X9: In every reachable state all four indices are below [N]; the
    producer's cached read index is the read index of some earlier moment
    (going round the ring from it one meets the read index before the write
    index), and the consumer's cached write index lies between the read
    index and the write index. *)
Theorem cached_indices_lag q :
  reachable dflt moved_from N q →
  0 ≤ readIndexCache_ (writer_ q) < N
  ∧ 0 ≤ writeIndexCache_ (reader_ q) < N
  ∧ dist N (readIndexCache_ (writer_ q)) (readIndex_ (reader_ q))
    + dist N (readIndex_ (reader_ q)) (writeIndex_ (writer_ q)) ≤ N - 1
  ∧ dist N (readIndex_ (reader_ q)) (writeIndexCache_ (reader_ q))
    + dist N (writeIndexCache_ (reader_ q)) (writeIndex_ (writer_ q))
    = size N q
  ∧ length (items_ q) = Z.to_nat N.
Proof.
  intros Hq%wf_reachable. rewrite size_val by done.
  destruct Hq as [Hi Hr Hw Hrc Hwc Hp Hc].
  split; [done|]. split; [done|]. split; [lia|]. split; [|done].
  ring_arith.
Qed.


(** *** [consume_n] *)

Lemma fold_record (vs log : list T) :
  fold_left (λ acc v, record_call v acc) vs log = log ++ vs.
Proof.
  revert log. induction vs as [|v vs IH]; intros log; simpl.
  - by rewrite app_nil_r.
  - rewrite IH. unfold record_call. by rewrite <- app_assoc.
Qed.

(** Whatever the fuel, a [consume_n] loop that exits has consumed the
    oldest elements, as many as the limit allows and the queue holds. *)
Lemma consume_n_loop_sound {A} (func : T → A → T * A) fuel q a m n m' q' a' :
  wf N q → 0 ≤ m ≤ n → n < 2 ^ 64 →
  consume_n_loop dflt N fuel func q a m n = Some (m', q', a') →
  wf N q'
  ∧ m' = m + Z.min (n - m) (size N q)
  ∧ a' = fold_left (λ acc v, (func v acc).2)
           (take (Z.to_nat (n - m)) (contents dflt N q)) a
  ∧ contents dflt N q' = drop (Z.to_nat (n - m)) (contents dflt N q).
Proof.
  revert q a m.
  assert (∀ q a m, wf N q → m = n →
            wf N q ∧ m = m + Z.min (n - m) (size N q)
            ∧ a = fold_left (λ acc v, (func v acc).2)
                    (take (Z.to_nat (n - m)) (contents dflt N q)) a
            ∧ contents dflt N q = drop (Z.to_nat (n - m)) (contents dflt N q))
    as Hstop.
  { intros q a m Hq ->. pose proof (size_range q Hq).
    rewrite Z.sub_diag. simpl. split_and!; [done | lia | done | done]. }
  induction fuel as [|fuel IH]; intros q a m Hq Hm Hn; simpl.
  - destruct (Z.ltb_spec m n); [done|]. intros; simplify_eq.
    apply Hstop; [done | lia].
  - destruct (Z.ltb_spec m n); [|intros; simplify_eq; apply Hstop; [done | lia]].
    pose proof (size_range q Hq).
    destruct (empty q) eqn:Hempty.
    + rewrite consume_one_empty by done. intros [= <- <- <-].
      rewrite (contents_nil q) by done.
      apply empty_size in Hempty; [|done].
      rewrite take_nil, drop_nil. split_and!; [done | lia | done | done].
    + destruct (consume_one_not_empty func q a Hq Hempty)
        as (q1 & -> & _ & _ & _ & Hq1 & Hc).
      assert (size N q1 = size N q - 1) as Hs.
      { apply (f_equal length) in Hc. simpl in Hc.
        rewrite <- !length_contents by done. lia. }
      rewrite (wrap_small (m + 1)) by lia. intros Hrec.
      apply IH in Hrec as (? & -> & -> & ->); [|done|lia|done].
      replace (Z.to_nat (n - m)) with (S (Z.to_nat (n - (m + 1)))) by lia.
      rewrite Hc. simpl. split_and!; [done | lia | done | done].
Qed.

Lemma consume_n_loop_returns {A} (func : T → A → T * A) fuel q a m n :
  wf N q → 0 ≤ m ≤ n → n < 2 ^ 64 →
  (Z.to_nat (Z.min (n - m) (size N q)) < fuel)%nat →
  is_Some (consume_n_loop dflt N fuel func q a m n).
Proof.
  revert q a m. induction fuel as [|fuel IH]; intros q a m Hq Hm Hn Hfuel; [lia|].
  simpl. destruct (Z.ltb_spec m n); [|done].
  pose proof (size_range q Hq).
  destruct (empty q) eqn:Hempty.
  - rewrite consume_one_empty by done. done.
  - destruct (consume_one_not_empty func q a Hq Hempty)
      as (q1 & -> & _ & _ & _ & Hq1 & Hc).
    assert (size N q1 = size N q - 1) as Hs.
    { apply (f_equal length) in Hc. simpl in Hc.
      rewrite <- !length_contents by done. lia. }
    assert (size N q ≠ 0) as Hne.
    { intros Hz. apply empty_size in Hz; [congruence | done]. }
    rewrite (wrap_small (m + 1)) by lia.
    apply IH; [done | lia | done | lia].
Qed.

(** X10: [consume_n] with a limit [n] on a reachable queue (and fuel above the
    number of elements it will take) returns the smaller of [n] and
    [size()], has applied the callback to that many of the oldest elements,
    oldest first, and leaves the others in the queue in their order.  With
    the limit zero it returns zero at once and leaves the queue as it
    was. *)
Theorem consume_n_takes_oldest {A : Type} (func : T → A → T * A) (a : A) n q fuel :
  reachable dflt moved_from N q →
  0 ≤ n < 2 ^ 64 →
  (Z.to_nat (Z.min n (size N q)) < fuel)%nat →
  (∃ q',
     consume_n dflt N fuel func n q a
     = Some (Z.min n (size N q), q',
             fold_left (λ acc v, (func v acc).2)
               (take (Z.to_nat n) (contents dflt N q)) a)
     ∧ contents dflt N q' = drop (Z.to_nat n) (contents dflt N q)
     ∧ size N q' = size N q - Z.min n (size N q))
  ∧ consume_n dflt N fuel func 0 q a = Some (0, q, a).
Proof.
  intros Hq%wf_reachable Hn Hfuel. split.
  - unfold consume_n.
    destruct (consume_n_loop_returns func fuel q a 0 n Hq) as [[[m' q'] a'] Hrun];
      [lia | lia | by rewrite Z.sub_0_r |].
    pose proof (consume_n_loop_sound func fuel q a 0 n m' q' a' Hq
                  ltac:(lia) ltac:(lia) Hrun) as (Hq' & -> & -> & Hc).
    rewrite Z.sub_0_r in *. exists q'. rewrite Hrun. simpl.
    split_and!; [done | done |].
    rewrite <- !length_contents, Hc, length_drop by done.
    pose proof (length_contents q Hq). lia.
  - unfold consume_n. destruct fuel; done.
Qed.


(** *** The queue implements a bounded first-in first-out list *)

Lemma size_lt_capacity q :
  wf N q → (Z.of_nat (length (contents dflt N q)) <? N - 1) = negb (full N q).
Proof.
  intros Hq. rewrite length_contents by done. pose proof (size_range q Hq).
  destruct (full N q) eqn:Hfull.
  - apply full_size in Hfull; [|done]. simpl. apply Z.ltb_ge. lia.
  - simpl. apply Z.ltb_lt.
    assert (size N q ≠ N - 1); [|lia].
    intros Hz. apply full_size in Hz; [congruence | done].
Qed.

(** One call, seen through the live elements, is the call of the model. *)
Lemma call_sim fuel o q q' ans :
  wf N q → call dflt moved_from N fuel o q = Some (q', ans) →
  wf N q' ∧ fifo_call N o (contents dflt N q) = Some (contents dflt N q', ans).
Proof.
  intros Hq Hcall.
  assert (∀ v b q1, emplace N v q = (b, q1) →
            wf N q1 ∧ (if Z.of_nat (length (contents dflt N q)) <? N - 1
                       then Some (contents dflt N q ++ [v], Accepted true)
                       else Some (contents dflt N q, Accepted false))
                      = Some (contents dflt N q1, @Accepted T b)) as Hemplace.
  { intros v b q1 He. pose proof (wf_emplace v q Hq) as Hq1. rewrite He in Hq1.
    split; [done|]. rewrite size_lt_capacity by done.
    destruct (full N q) eqn:Hfull; simpl.
    - rewrite emplace_full in He by done. by simplify_eq.
    - destruct (emplace_not_full v q Hq Hfull) as (q2 & He2 & _).
      rewrite He in He2. simplify_eq.
      by rewrite (contents_emplace v q q2). }
  assert (∀ r q1, pop dflt moved_from N q = (r, q1) →
            wf N q1 ∧ match r with
                      | Some v => contents dflt N q = v :: contents dflt N q1
                      | None => contents dflt N q = [] ∧ contents dflt N q1 = []
                      end) as Hpop.
  { intros r q1 He. pose proof (wf_pop q Hq) as Hq1. rewrite He in Hq1.
    split; [done|]. destruct r as [v|].
    - by apply contents_pop.
    - destruct (empty q) eqn:Hempty.
      + rewrite pop_empty in He by done. simplify_eq.
        by rewrite (contents_nil q1).
      + destruct (pop_not_empty q Hq Hempty) as (? & ? & _). congruence. }
  assert (∀ b q1, pop_discard N q = (b, q1) →
            wf N q1 ∧ if b then ∃ v, contents dflt N q = v :: contents dflt N q1
                      else contents dflt N q = [] ∧ contents dflt N q1 = [])
    as Hdiscard.
  { intros b q1 He. pose proof (wf_pop_discard q Hq) as Hq1. rewrite He in Hq1.
    split; [done|].
    destruct (empty q) eqn:Hempty.
    - rewrite pop_discard_empty in He by done. simplify_eq.
      by rewrite (contents_nil q1).
    - destruct (pop_discard_not_empty q Hq Hempty) as (q2 & He2 & _ & _ & _ & Hc).
      rewrite He in He2. simplify_eq. eauto. }
  destruct o; simpl in Hcall |- *.
  - destruct (emplace N v q) as [b q1] eqn:He. simplify_eq. by apply Hemplace.
  - unfold push in Hcall.
    destruct (emplace N v q) as [b q1] eqn:He. simplify_eq. by apply Hemplace.
  - destruct (force_emplace N fuel v q) as [q1|] eqn:He; simplify_eq/=.
    apply force_emplace_returns in He.
    destruct (Hemplace v true q' He) as [? Hm]. split; [done|].
    destruct (Z.of_nat (length (contents dflt N q)) <? N - 1);
      [injection Hm as ->; done | discriminate].
  - unfold force_push in Hcall.
    destruct (force_emplace N fuel v q) as [q1|] eqn:He; simplify_eq/=.
    apply force_emplace_returns in He.
    destruct (Hemplace v true q' He) as [? Hm]. split; [done|].
    destruct (Z.of_nat (length (contents dflt N q)) <? N - 1);
      [injection Hm as ->; done | discriminate].
  - destruct (pop dflt moved_from N q) as [r q1] eqn:He. simplify_eq.
    destruct (Hpop r q' eq_refl) as [? Hc]. split; [done|].
    destruct r; [by rewrite Hc | destruct Hc as [-> ->]; done].
  - destruct (pop_discard N q) as [b q1] eqn:He. simplify_eq.
    destruct (Hdiscard b q' eq_refl) as [? Hc]. split; [done|].
    destruct b; [destruct Hc as [v ->]; done | destruct Hc as [-> ->]; done].
  - destruct (force_pop dflt moved_from N fuel q) as [[v q1]|] eqn:He; simplify_eq/=.
    apply force_pop_returns in He.
    destruct (Hpop (Some v) q' He) as [? Hc]. split; [done|]. by rewrite Hc.
  - destruct (force_pop_discard N fuel q) as [q1|] eqn:He; simplify_eq/=.
    apply force_pop_discard_returns in He.
    destruct (Hdiscard true q' He) as [? [v Hc]]. split; [done|]. by rewrite Hc.
  - destruct (empty q) eqn:Hempty.
    + rewrite consume_one_empty in Hcall by done. simplify_eq.
      split; [done|]. by rewrite (contents_nil q').
    + destruct (consume_one_not_empty (leaving leave record_call) q [] Hq Hempty)
        as (q1 & Hone & _ & _ & _ & Hq1 & Hc).
      rewrite Hone in Hcall. simplify_eq/=. split; [done|]. by rewrite Hc.
  - unfold consume_all in Hcall.
    pose proof (size_range q Hq). pose proof pow2_range.
    pose proof (consume_all_loop_val (leaving leave record_call) fuel q [] 0 Hq
                  ltac:(lia) ltac:(lia)) as Hall.
    case_decide; [|by rewrite Hall in Hcall].
    destruct Hall as (q1 & Hall & Hq1 & Hempty). rewrite Hall in Hcall.
    simplify_eq/=. split; [done|].
    rewrite fold_record, (contents_nil q') by done. simpl.
    by rewrite length_contents.
  - unfold consume_n in Hcall.
    destruct (consume_n_loop dflt N fuel (leaving leave record_call) q [] 0 (wrap n))
      as [[[m q1] log]|] eqn:Hn; simplify_eq/=.
    assert (0 ≤ wrap n < 2 ^ 64) as Hwrap.
    { unfold wrap, size_t_modulus. apply Z.mod_pos_bound. lia. }
    apply consume_n_loop_sound in Hn as (? & -> & -> & Hc); [|done|lia|lia].
    rewrite Z.sub_0_r in *. split; [done|]. simpl.
    by rewrite fold_record, Hc, length_contents.
  - simplify_eq. split; [by apply wf_reset|].
    by rewrite (contents_nil (reset q)) by (by apply wf_reset || done).
Qed.

(** A call the model can serve returns, given fuel above the number of
    live elements. *)
Lemma call_returns fuel o q :
  wf N q → (length (contents dflt N q) < fuel)%nat →
  is_Some (fifo_call N o (contents dflt N q)) →
  is_Some (call dflt moved_from N fuel o q).
Proof.
  intros Hq Hfuel Hmodel. pose proof (size_range q Hq) as Hs.
  pose proof (length_contents q Hq) as Hlen. pose proof pow2_range.
  destruct fuel as [|fuel]; [lia|].
  destruct o; simpl in Hmodel |- *.
  - by destruct (emplace N v q).
  - by destruct (push N v q).
  - rewrite size_lt_capacity in Hmodel by done.
    destruct (full N q) eqn:Hfull; [by destruct Hmodel|].
    rewrite force_emplace_of_emplace.
    destruct (emplace_not_full v q Hq Hfull) as (q' & -> & _). done.
  - rewrite size_lt_capacity in Hmodel by done.
    destruct (full N q) eqn:Hfull; [by destruct Hmodel|].
    unfold force_push. rewrite force_emplace_of_emplace.
    destruct (emplace_not_full v q Hq Hfull) as (q' & -> & _). done.
  - by destruct (pop dflt moved_from N q).
  - by destruct (pop_discard N q).
  - destruct (empty q) eqn:Hempty.
    { rewrite (contents_nil q) in Hmodel by done. by destruct Hmodel. }
    rewrite force_pop_of_pop.
    destruct (pop_not_empty q Hq Hempty) as (q' & -> & _). done.
  - destruct (empty q) eqn:Hempty.
    { rewrite (contents_nil q) in Hmodel by done. by destruct Hmodel. }
    destruct (pop_discard_not_empty q Hq Hempty) as (q' & _ & -> & _). done.
  - by destruct (consume_one dflt N (leaving leave record_call) q []) as [[??]?].
  - unfold consume_all.
    pose proof (consume_all_loop_val (leaving leave record_call) (S fuel) q [] 0 Hq
                  ltac:(lia) ltac:(lia)) as Hall.
    rewrite decide_True in Hall by done.
    destruct Hall as (q' & -> & _). done.
  - unfold consume_n.
    assert (0 ≤ wrap n < 2 ^ 64) as Hwrap.
    { unfold wrap, size_t_modulus. apply Z.mod_pos_bound. lia. }
    destruct (consume_n_loop_returns (leaving leave record_call) (S fuel) q [] 0
                (wrap n) Hq)
      as [[[m q'] log] ->]; [lia | lia | lia | done].
  - done.
Qed.


Lemma calls_sim fuel ops q q' answers :
  wf N q → calls dflt moved_from N fuel ops q = Some (q', answers) →
  wf N q'
  ∧ fifo_calls N ops (contents dflt N q) = Some (contents dflt N q', answers).
Proof.
  revert q answers. induction ops as [|o ops IH]; intros q answers Hq; simpl.
  - intros; by simplify_eq.
  - destruct (call dflt moved_from N fuel o q) as [[q1 a]|] eqn:Hcall; [|done].
    destruct (calls dflt moved_from N fuel ops q1) as [[q2 rest]|] eqn:Hrest; [|done].
    intros; simplify_eq.
    apply call_sim in Hcall as [Hq1 ->]; [|done].
    apply IH in Hrest as [? ->]; done.
Qed.

(** X11: Any sequence of calls on a reachable queue that returns gives the
    answers the bounded first-in first-out list gives, call by call, and
    ends holding the elements the list ends with: what [emplace], [push],
    [pop], [consume_one], [consume_all], [consume_n], their blocking forms
    and [reset] return is decided by the live elements alone. *)
Theorem calls_refine_fifo fuel ops q q' answers :
  reachable dflt moved_from N q →
  calls dflt moved_from N fuel ops q = Some (q', answers) →
  fifo_calls N ops (contents dflt N q) = Some (contents dflt N q', answers).
Proof.
  intros Hq%wf_reachable Hcalls. by apply calls_sim in Hcalls as [_ ?].
Qed.

(** X12: Conversely, with fuel of at least [N], every sequence of calls the list
    can serve returns on the queue, with the same answers: a call fails to
    return only where a blocking call meets a full or an empty queue. *)
Theorem calls_return_when_served fuel ops q l answers :
  reachable dflt moved_from N q →
  (Z.to_nat N ≤ fuel)%nat →
  fifo_calls N ops (contents dflt N q) = Some (l, answers) →
  ∃ q', calls dflt moved_from N fuel ops q = Some (q', answers)
    ∧ contents dflt N q' = l.
Proof.
  intros Hq%wf_reachable Hfuel. revert q Hq l answers.
  induction ops as [|o ops IH]; intros q Hq l answers; simpl.
  - intros; simplify_eq. eauto.
  - destruct (fifo_call N o (contents dflt N q)) as [[l1 a]|] eqn:Hmodel; [|done].
    destruct (fifo_calls N ops l1) as [[l2 rest]|] eqn:Hrest; [|done].
    intros; simplify_eq.
    pose proof (size_range q Hq). pose proof (length_contents q Hq).
    destruct (call_returns fuel o q Hq) as [[q1 a1] Hcall]; [lia | by rewrite Hmodel |].
    rewrite Hcall.
    apply call_sim in Hcall as [Hq1 Hsim]; [|done].
    rewrite Hmodel in Hsim. simplify_eq.
    destruct (IH q1 Hq1 l rest Hrest) as (q' & -> & ?). eauto.
Qed.

(** *** First in, first out, under any interleaving of calls *)

Lemma fifo_call_values o (l l' : list T) a :
  tells_values o = true → fifo_call N o l = Some (l', a) →
  l ++ values_in o a = values_out a ++ l'.
Proof.
  intros Htells Hcall. destruct o; simpl in *; try done.
  all: repeat case_match; simplify_eq/=; rewrite ?app_nil_r; try done.
  by rewrite take_drop.
Qed.

(** X13: Whatever the order in which enqueues and dequeues are called on a
    freshly constructed queue (with no [reset] and no [pop()], which
    discard elements without reporting them), the values handed out so far
    followed by the elements still held are exactly the values accepted so
    far, in the order they were accepted: nothing is lost, duplicated or
    reordered. *)
Theorem interleaved_fifo fuel ops q answers :
  forallb tells_values ops = true →
  calls dflt moved_from N fuel ops (fresh dflt N) = Some (q, answers) →
  all_in ops answers = all_out answers ++ contents dflt N q.
Proof.
  intros Htells Hcalls.
  assert (∀ ops q0 q1 answers, wf N q0 →
            forallb tells_values ops = true →
            calls dflt moved_from N fuel ops q0 = Some (q1, answers) →
            contents dflt N q0 ++ all_in ops answers
            = all_out answers ++ contents dflt N q1) as Hgen.
  { clear Htells Hcalls. intros ops' q0 q1 answers' Hq0. revert q0 q1 answers' Hq0.
    induction ops' as [|o ops' IH]; intros q0 q1 answers' Hq0; simpl.
    - intros _ ?; simplify_eq. simpl. by rewrite app_nil_r.
    - intros [Ho Hops]%andb_prop.
      destruct (call dflt moved_from N fuel o q0) as [[q2 a]|] eqn:Hcall; [|done].
      destruct (calls dflt moved_from N fuel ops' q2) as [[q3 rest]|] eqn:Hrest; [|done].
      intros; simplify_eq. simpl.
      apply call_sim in Hcall as [Hq2 Hsim]; [|done].
      apply fifo_call_values in Hsim; [|done].
      rewrite app_assoc, Hsim, <- !app_assoc. f_equal.
      by apply IH. }
  rewrite <- (Hgen ops (fresh dflt N) q answers wf_fresh Htells Hcalls).
  by rewrite (contents_nil (fresh dflt N)) by (apply wf_fresh || done).
Qed.

End Theory.

(** ** Two places where the header departs from its description *)

(** C5: [front()] names a member [readIdx_] that [ReadState] does not
    declare, so it yields no element at all: on the queue holding the single
    value [10], where the next [pop] yields [10], [front] denotes nothing. *)
Theorem front_reads_undeclared_member :
  ReadState_member "readIdx_" = None
  ∧ (∀ (T : Type) (dflt : T) (q : spsc_queue T), front dflt q = None)
  ∧ (let q := (emplace 8 10 (fresh 0 8)).2 in
     empty q = false
     ∧ front 0 q = None
     ∧ (pop 0 (λ x, x) 8 q).1 = Some 10).
Proof. split_and!; done. Qed.

(** C6: the storage is chosen the other way round: the slot array is
    allocated on the heap exactly when the footprint does NOT exceed
    [STACK_BYTES], and embedded inline when it does.  A queue of 8 slots
    (1024 bytes) is heap-allocated, one of 8192 slots (1 MiB) is inline. *)
Theorem storage_selection_inverted :
  (storage_bytes 8 = 1024 ∧ use_heap 8 = false
   ∧ items_storage 8 = HeapArray
   ∧ construction_allocations (items_storage 8) = 1%nat)
  ∧ (storage_bytes 8192 = 1048576 ∧ use_heap 8192 = true
     ∧ items_storage 8192 = InlineArray
     ∧ construction_allocations (items_storage 8192) = 0%nat)
  ∧ (∀ N, items_storage N = HeapArray ↔ storage_bytes N ≤ STACK_BYTES)
  ∧ (∀ N, items_storage N = InlineArray ↔ STACK_BYTES < storage_bytes N).
Proof.
  split_and!; try done.
  - intros N. unfold items_storage, use_heap.
    destruct (Z.ltb_spec STACK_BYTES (storage_bytes N)); simpl; split; (done || lia).
  - intros N. unfold items_storage, use_heap.
    destruct (Z.ltb_spec STACK_BYTES (storage_bytes N)); simpl; split; (done || lia).
Qed.

(** ** Concrete runs

    The theorems above at the queues of the unit tests: elements of type
    [int] (value-initialised to [0], unchanged by a move), [N = 4] and
    [N = 8]. *)

Lemma fifo_order_witness :
  emplace_all 4 [1; 2; 3] (fresh 0 4)
  = Some (mkQueue [1; 2; 3; 0] (mkReadState 0 0) (mkWriteState 3 0))
  ∧ pop_all 0 (λ x, x) 4 3 (mkQueue [1; 2; 3; 0] (mkReadState 0 0) (mkWriteState 3 0))
    = Some ([1; 2; 3], mkQueue [1; 2; 3; 0] (mkReadState 3 3) (mkWriteState 3 0))
  ∧ [1; 2; 3] = take 3 [1; 2; 3] ∧ (3 ≤ length [1; 2; 3])%nat.
Proof.
  assert (is_pow2 4) as H4 by (exists 2; split; [lia | reflexivity]).
  split; [vm_compute; reflexivity|]. split; [vm_compute; reflexivity|].
  apply (fifo_order 0 (λ x, x) 4 H4
           (fresh 0 4) [1; 2; 3]
           (mkQueue [1; 2; 3; 0] (mkReadState 0 0) (mkWriteState 3 0))
           3%nat [1; 2; 3]
           (mkQueue [1; 2; 3; 0] (mkReadState 3 3) (mkWriteState 3 0))).
  - apply reachable_fresh.
  - vm_compute; reflexivity.
  - vm_compute; reflexivity.
  - vm_compute; reflexivity.
Defined.

Lemma fresh_queue_capacity_witness :
  empty (fresh 0 8) = true ∧ size 8 (fresh 0 8) = 0 ∧ capacity 8 = 7
  ∧ ∃ q', emplace_all 8 [1; 2; 3; 4; 5; 6; 7] (fresh 0 8) = Some q'
      ∧ full 8 q' = true ∧ emplace 8 8 q' = (false, q').
Proof.
  assert (is_pow2 8) as H8 by (exists 3; split; [lia | reflexivity]).
  destruct (fresh_queue_capacity 0 8 H8) as (He & Hs & Hc & Hall).
  destruct (Hall [1; 2; 3; 4; 5; 6; 7] eq_refl) as (q' & Hin & Hfull & Hfail).
  split; [exact He|]. split; [exact Hs|]. split; [exact Hc|].
  exists q'. split; [exact Hin|]. split; [exact Hfull | exact (Hfail 8)].
Defined.

Lemma size_counts_live_witness :
  run 0 (λ x, x) 4 1
    [Emplace 1; Emplace 2; Emplace 3; Emplace 4; Pop; Pop; Emplace 5; Emplace 6]
    (fresh 0 4) 0
  = Some (mkQueue [6; 2; 3; 5] (mkReadState 2 3) (mkWriteState 1 2), 3)
  ∧ size 4 (mkQueue [6; 2; 3; 5] (mkReadState 2 3) (mkWriteState 1 2)) = 3.
Proof.
  assert (is_pow2 4) as H4 by (exists 2; split; [lia | reflexivity]).
  split; [vm_compute; reflexivity|].
  refine (proj1 (size_counts_live 0 (λ x, x) 4 H4 1
            [Emplace 1; Emplace 2; Emplace 3; Emplace 4; Pop; Pop; Emplace 5; Emplace 6]
            (mkQueue [6; 2; 3; 5] (mkReadState 2 3) (mkWriteState 1 2)) 3 _)).
  vm_compute; reflexivity.
Defined.

Lemma failed_call_no_change_witness :
  (full 4 (mkQueue [1; 2; 3; 0] (mkReadState 0 0) (mkWriteState 3 0)) = true
   ∧ emplace 4 4 (mkQueue [1; 2; 3; 0] (mkReadState 0 0) (mkWriteState 3 0))
     = (false, mkQueue [1; 2; 3; 0] (mkReadState 0 0) (mkWriteState 3 0)))
  ∧ empty (fresh 0 4) = true
  ∧ pop 0 (λ x, x) 4 (fresh 0 4) = (None, fresh 0 4).
Proof.
  assert (is_pow2 4) as H4 by (exists 2; split; [lia | reflexivity]).
  split.
  - split; [vm_compute; reflexivity|].
    refine (proj1 (proj1 (failed_call_no_change 0 (λ x, x) 4 H4
                            (mkQueue [1; 2; 3; 0] (mkReadState 0 0) (mkWriteState 3 0))
                            _) _ 4)).
    + apply (reachable_run 0 (λ x, x) 4 1 [Emplace 1; Emplace 2; Emplace 3]
               (fresh 0 4) 0 _ 3 (reachable_fresh 0 (λ x, x) 4)).
      vm_compute; reflexivity.
    + vm_compute; reflexivity.
  - split; [vm_compute; reflexivity|].
    apply (proj2 (failed_call_no_change 0 (λ x, x) 4 H4 _
                    (reachable_fresh 0 (λ x, x) 4))).
    vm_compute; reflexivity.
Defined.


Lemma consume_all_drains_witness :
  emplace_all 8 [0; 1; 2; 3; 4] (fresh 0 8)
  = Some (mkQueue [0; 1; 2; 3; 4; 0; 0; 0] (mkReadState 0 0) (mkWriteState 5 0))
  ∧ ∃ q',
      consume_all 0 8 6 (by_value (λ x, x) record_call)
        (mkQueue [0; 1; 2; 3; 4; 0; 0; 0] (mkReadState 0 0) (mkWriteState 5 0)) []
      = Some (5, q', [0; 1; 2; 3; 4])
      ∧ empty q' = true.
Proof.
  assert (is_pow2 8) as H8 by (exists 3; split; [lia | reflexivity]).
  split; [vm_compute; reflexivity|].
  assert (reachable 0 (λ x, x) 8
            (mkQueue [0; 1; 2; 3; 4; 0; 0; 0] (mkReadState 0 0) (mkWriteState 5 0)))
    as Hq.
  { apply (reachable_run 0 (λ x, x) 8 1
             [Emplace 0; Emplace 1; Emplace 2; Emplace 3; Emplace 4]
             (fresh 0 8) 0 _ 5 (reachable_fresh 0 (λ x, x) 8)).
    vm_compute; reflexivity. }
  destruct (consume_all_drains 0 (λ x, x) 8 H8 (by_value (λ x, x) record_call)
              [] _ 6%nat Hq)
    as ((q' & Hall & Hempty) & _ & _).
  { vm_compute. lia. }
  exists q'. split; [exact Hall | exact Hempty].
Defined.

Lemma force_calls_succeed_witness :
  (∃ q', force_emplace 4 1 7 (fresh 0 4) = Some q'
     ∧ emplace 4 7 (fresh 0 4) = (true, q'))
  ∧ (∃ v q',
       force_pop 0 (λ x, x) 4 1
         (mkQueue [7; 0; 0; 0] (mkReadState 0 0) (mkWriteState 1 0)) = Some (v, q')
       ∧ pop 0 (λ x, x) 4
           (mkQueue [7; 0; 0; 0] (mkReadState 0 0) (mkWriteState 1 0)) = (Some v, q'))
  ∧ (∃ q',
       force_pop_discard 4 1
         (mkQueue [7; 0; 0; 0] (mkReadState 0 0) (mkWriteState 1 0)) = Some q'
       ∧ pop_discard 4
           (mkQueue [7; 0; 0; 0] (mkReadState 0 0) (mkWriteState 1 0)) = (true, q')).
Proof.
  assert (is_pow2 4) as H4 by (exists 2; split; [lia | reflexivity]).
  assert (reachable 0 (λ x, x) 4
            (mkQueue [7; 0; 0; 0] (mkReadState 0 0) (mkWriteState 1 0))) as Hq.
  { apply (reachable_run 0 (λ x, x) 4 1 [Emplace 7] (fresh 0 4) 0 _ 1
             (reachable_fresh 0 (λ x, x) 4)).
    vm_compute; reflexivity. }
  split; [|split].
  - destruct (proj1 (proj2 (proj2 (proj2
        (force_calls_succeed 0 (λ x, x) 4 H4 _ (reachable_fresh 0 (λ x, x) 4)))))
        ltac:(vm_compute; reflexivity) 0%nat 7) as (q' & Hforce & _ & Hemplace & _).
    exists q'. split; [exact Hforce | exact Hemplace].
  - destruct (proj1 (proj2 (proj2 (proj2 (proj2
        (force_calls_succeed 0 (λ x, x) 4 H4 _ Hq)))))
        ltac:(vm_compute; reflexivity) 0%nat)
      as (v & q' & Hforce & Hpop & _).
    exists v, q'. split; [exact Hforce | exact Hpop].
  - destruct (proj2 (proj2 (proj2 (proj2 (proj2
        (force_calls_succeed 0 (λ x, x) 4 H4 _ Hq)))))
        ltac:(vm_compute; reflexivity) 0%nat)
      as (v & q' & Hforce & Hpop & _).
    exists q'. split; [exact Hforce | exact Hpop].
Defined.

Lemma indices_below_N_witness :
  run 0 (λ x, x) 4 5
    [Emplace 1; Emplace 2; Emplace 3; Pop; Pop; Emplace 4; ConsumeAll (λ x, x); Emplace 5]
    (fresh 0 4) 0
  = Some (mkQueue [5; 2; 3; 4] (mkReadState 0 0) (mkWriteState 1 2), 1)
  ∧ 0 ≤ 1 < 4 ∧ 0 ≤ 0 < 4
  ∧ 0 ≤ size 4 (mkQueue [5; 2; 3; 4] (mkReadState 0 0) (mkWriteState 1 2)) ≤ 4 - 1.
Proof.
  assert (is_pow2 4) as H4 by (exists 2; split; [lia | reflexivity]).
  split; [vm_compute; reflexivity|].
  refine (let H := indices_below_N 0 (λ x, x) 4 H4
                     (mkQueue [5; 2; 3; 4] (mkReadState 0 0) (mkWriteState 1 2)) _ in
          conj (proj1 H) (conj (proj1 (proj2 H)) (proj1 (proj2 (proj2 H))))).
  apply (reachable_run 0 (λ x, x) 4 5
           [Emplace 1; Emplace 2; Emplace 3; Pop; Pop; Emplace 4; ConsumeAll (λ x, x); Emplace 5]
           (fresh 0 4) 0 _ 1 (reachable_fresh 0 (λ x, x) 4)).
  vm_compute; reflexivity.
Defined.

(** ** The capacity check and the storage switch *)

Lemma land_high_bit N k :
  0 ≤ k → Z.testbit N k = true → Z.testbit (N - 1) k = true →
  Z.land N (N - 1) ≠ 0.
Proof.
  intros Hk HbN HbP Hz.
  assert (Z.testbit (Z.land N (N - 1)) k = true) as Hb.
  { by rewrite Z.land_spec, HbN, HbP. }
  rewrite Hz, Z.bits_0 in Hb. done.
Qed.

(** X14: The [static_assert] of the class accepts exactly the powers of two and
    zero: [(N & (N - 1)) == 0] also holds for [N = 0], where [N - 1] wraps
    to the largest [std::size_t]. *)
Theorem static_assert_accepts N :
  0 ≤ N < 2 ^ 64 →
  static_assert_pow2 N = true ↔ N = 0 ∨ is_pow2 N.
Proof.
  intros HN. unfold static_assert_pow2. rewrite Z.eqb_eq. split.
  - intros Hland.
    destruct (decide (N = 0)) as [|Hne]; [by left | right].
    rewrite (wrap_small (N - 1)) in Hland by lia.
    pose proof (Z.log2_spec N ltac:(lia)) as [Hlo Hhi].
    pose proof (Z.log2_nonneg N) as Hk.
    exists (Z.log2 N). split.
    + split; [done|]. apply (Z.pow_lt_mono_r_iff 2); lia.
    + destruct (decide (N = 2 ^ Z.log2 N)) as [|Hgt]; [done|].
      exfalso. apply (land_high_bit N (Z.log2 N)); [done | | | done].
      * apply Z.bit_log2. lia.
      * assert (Z.log2 (N - 1) = Z.log2 N) as Hlog.
        { apply Z.log2_unique; [done|]. rewrite <- Z.add_1_r in Hhi |- *. lia. }
        rewrite <- Hlog. apply Z.bit_log2. lia.
  - intros [->|Hpow]; [done|].
    apply Z.eqb_eq. by apply pow2_static_assert.
Qed.

(** X15: Counted in slots, the storage switch is at 4096: while [2 * N * 64]
    does not overflow, [use_heap] is true exactly when [N] exceeds 4096,
    which is where the array is embedded in the object; for a power of two
    from [2^57] on the product wraps to zero and [use_heap] is false. *)
Theorem use_heap_threshold N :
  (0 ≤ N < 2 ^ 57 →
     (use_heap N = true ↔ 4096 < N)
     ∧ (items_storage N = InlineArray ↔ 4096 < N))
  ∧ (is_pow2 N → 2 ^ 57 ≤ N →
       storage_bytes N = 0 ∧ use_heap N = false ∧ items_storage N = HeapArray).
Proof.
  split.
  - intros HN.
    assert (storage_bytes N = 128 * N) as Hbytes.
    { unfold storage_bytes, wrap, size_t_modulus, details.cacheLineSize.
      rewrite (Z.mod_small (2 * N)) by lia. rewrite Z.mod_small by lia. lia. }
    unfold items_storage, use_heap. rewrite Hbytes. unfold STACK_BYTES.
    destruct (Z.ltb_spec 524288 (128 * N)); simpl; split; split; (done || lia).
  - intros (k & Hk & ->) Hbig.
    assert (57 ≤ k) as Hk57.
    { apply (Z.pow_le_mono_r_iff 2); lia. }
    assert (storage_bytes (2 ^ k) = 0) as Hbytes.
    { unfold storage_bytes, wrap, size_t_modulus, details.cacheLineSize.
      rewrite Z.mul_mod_idemp_l by lia.
      replace k with (57 + (k - 57)) by lia. rewrite Z.pow_add_r by lia.
      replace (2 * (2 ^ 57 * 2 ^ (k - 57)) * 64) with (2 ^ (k - 57) * 2 ^ 64) by lia.
      apply Z.mod_mul. lia. }
    unfold items_storage, use_heap. rewrite Hbytes. done.
Qed.

(** ** The mutex-protected queue *)

Lemma mutex_push_all {T : Type} (vs : list T) (mq : mutex_queue.t T) :
  mutex_queue.push_all vs mq
  = mutex_queue.mk (mutex_queue.capacity_ mq) (mutex_queue.q_ mq ++ vs).
Proof.
  revert mq. unfold mutex_queue.push_all.
  induction vs as [|v vs IH]; intros mq; simpl.
  - rewrite app_nil_r. by destruct mq.
  - rewrite IH. simpl. by rewrite <- app_assoc.
Qed.

Lemma mutex_pop_all {T : Type} (k : nat) (mq : mutex_queue.t T) :
  mutex_queue.pop_all k mq
  = if decide (k ≤ length (mutex_queue.q_ mq))%nat
    then Some (take k (mutex_queue.q_ mq),
               mutex_queue.mk (mutex_queue.capacity_ mq)
                 (drop k (mutex_queue.q_ mq)))
    else None.
Proof.
  revert mq. induction k as [|k IH]; intros [c l]; simpl.
  - done.
  - unfold mutex_queue.pop, mutex_queue.wait_not_empty. simpl.
    destruct l as [|v l]; simpl; [done|].
    rewrite IH. simpl.
    destruct (decide (k ≤ length l)%nat);
      destruct (decide (S k ≤ S (length l))%nat); (done || lia).
Qed.

(** X16: [mutex_queue::push] never refuses and never looks at the capacity the
    queue was constructed with: after pushing any number of values on a new
    queue all of them are held, in order, and the next push returns [true]
    again. *)
Theorem mutex_queue_unbounded {T : Type} (capacity : Z) (vs : list T) (v : T) :
  mutex_queue.q_ (mutex_queue.push_all vs (mutex_queue.make capacity)) = vs
  ∧ mutex_queue.capacity_ (mutex_queue.push_all vs (mutex_queue.make capacity))
    = wrap capacity
  ∧ (mutex_queue.push v (mutex_queue.push_all vs (mutex_queue.make capacity))).1
    = true
  ∧ mutex_queue.q_
      (mutex_queue.push v (mutex_queue.push_all vs (mutex_queue.make capacity))).2
    = vs ++ [v].
Proof. rewrite mutex_push_all. simpl. done. Qed.

(** X17: [mutex_queue] is first-in first-out: after pushing [vs] on a queue
    holding [l], [k] pops return when [k] is at most the number of elements
    held, with the [k] oldest values in order, and never return otherwise
    (the wait on an empty queue has nobody to end it); [consume_one] hands
    the callback the value [pop] would return and leaves the same queue. *)
Theorem mutex_queue_fifo {T A : Type} (func : T → A → A) (a : A)
    (vs : list T) (k : nat) (mq : mutex_queue.t T) :
  let l := mutex_queue.q_ mq ++ vs in
  ((k ≤ length l)%nat →
     mutex_queue.pop_all k (mutex_queue.push_all vs mq)
     = Some (take k l, mutex_queue.mk (mutex_queue.capacity_ mq) (drop k l)))
  ∧ ((length l < k)%nat →
       mutex_queue.pop_all k (mutex_queue.push_all vs mq) = None)
  ∧ (mutex_queue.q_ mq = [] →
       mutex_queue.pop mq = None ∧ mutex_queue.pop_discard mq = None
       ∧ mutex_queue.consume_one func mq a = None)
  ∧ (∀ v mq', mutex_queue.pop mq = Some (true, v, mq') →
       mutex_queue.consume_one func mq a = Some (true, mq', func v a)
       ∧ mutex_queue.pop_discard mq = Some (true, mq')).
Proof.
  simpl. rewrite mutex_pop_all, mutex_push_all. simpl. split_and!.
  - intros Hk. by rewrite decide_True.
  - intros Hk. rewrite decide_False by lia. done.
  - intros Hempty.
    unfold mutex_queue.pop, mutex_queue.pop_discard, mutex_queue.consume_one,
      mutex_queue.wait_not_empty. by rewrite Hempty.
  - intros v mq'.
    unfold mutex_queue.pop, mutex_queue.pop_discard, mutex_queue.consume_one,
      mutex_queue.wait_not_empty.
    destruct mq as [c [|w l]]; simpl; [done|].
    intros; by simplify_eq.
Qed.

(** ** Concrete runs of the further properties

    A 4-slot queue of [int] after [emplace] of 1, 2, 3 (full), and after
    [emplace] 1, 2, 3, [pop], [emplace] 4, [pop] (its write index has
    wrapped to 0 and its read index is 2). *)

Lemma reachable_full4 :
  reachable 0 (λ x, x) 4 (mkQueue [1; 2; 3; 0] (mkReadState 0 0) (mkWriteState 3 0)).
Proof.
  apply (reachable_run 0 (λ x, x) 4 1 [Emplace 1; Emplace 2; Emplace 3]
           (fresh 0 4) 0 _ 3 (reachable_fresh 0 (λ x, x) 4)).
  vm_compute; reflexivity.
Qed.

Lemma reachable_wrapped4 :
  reachable 0 (λ x, x) 4 (mkQueue [1; 2; 3; 4] (mkReadState 2 3) (mkWriteState 0 1)).
Proof.
  apply (reachable_run 0 (λ x, x) 4 1
           [Emplace 1; Emplace 2; Emplace 3; Pop; Emplace 4; Pop]
           (fresh 0 4) 0 _ 2 (reachable_fresh 0 (λ x, x) 4)).
  vm_compute; reflexivity.
Qed.

Lemma pow2_4 : is_pow2 4.
Proof. exists 2. split; [lia | reflexivity]. Qed.

Lemma calls_agree_with_queries_witness :
  full 4 (mkQueue [1; 2; 3; 0] (mkReadState 0 0) (mkWriteState 3 0)) = true
  ∧ (emplace 4 9 (mkQueue [1; 2; 3; 0] (mkReadState 0 0) (mkWriteState 3 0))).1
    = negb (full 4 (mkQueue [1; 2; 3; 0] (mkReadState 0 0) (mkWriteState 3 0))).
Proof.
  split; [vm_compute; reflexivity|].
  exact (proj1 (calls_agree_with_queries 0 (λ x, x) 4 pow2_4
                  (by_value (λ x, x) record_call) [] 9 _ reachable_full4)).
Defined.

Lemma producer_consumer_frame_witness :
  force_emplace 4 1 9 (fresh 0 4)
  = Some (mkQueue [9; 0; 0; 0] (mkReadState 0 0) (mkWriteState 1 0))
  ∧ reader_ (mkQueue [9; 0; 0; 0] (mkReadState 0 0) (mkWriteState 1 0))
    = reader_ (fresh 0 4).
Proof.
  split; [vm_compute; reflexivity|].
  refine (proj1 (proj2 (proj2 (proj2 (proj2 (proj2
            (producer_consumer_frame 0 (λ x, x) 4 (by_value (λ x, x) record_call)
               [] 9 (fresh 0 4)))))))
            1%nat _ _).
  vm_compute; reflexivity.
Defined.

Lemma slot_frame_witness :
  full 4 (mkQueue [1; 2; 3; 4] (mkReadState 2 3) (mkWriteState 0 1)) = false
  ∧ slot 0 (items_ (emplace 4 9
                      (mkQueue [1; 2; 3; 4] (mkReadState 2 3) (mkWriteState 0 1))).2)
      0 = 9
  ∧ slot 0 (items_ (emplace 4 9
                      (mkQueue [1; 2; 3; 4] (mkReadState 2 3) (mkWriteState 0 1))).2)
      3 = 4.
Proof.
  split; [vm_compute; reflexivity|].
  destruct (proj1 (slot_frame 0 (λ x, x) 4 pow2_4 9 _ reachable_wrapped4)
              ltac:(vm_compute; reflexivity)) as [Hw Hothers].
  split; [exact Hw|]. apply (Hothers 3); [lia | discriminate].
Defined.

Lemma force_calls_block_witness :
  full 4 (mkQueue [1; 2; 3; 0] (mkReadState 0 0) (mkWriteState 3 0)) = true
  ∧ force_emplace 4 1000 9
      (mkQueue [1; 2; 3; 0] (mkReadState 0 0) (mkWriteState 3 0)) = None
  ∧ empty (fresh 0 4) = true
  ∧ force_pop 0 (λ x, x) 4 1000 (fresh 0 4) = None.
Proof.
  split; [vm_compute; reflexivity|]. split.
  - apply (proj1 (force_calls_block 0 (λ x, x) 4 pow2_4 _ reachable_full4)
             ltac:(vm_compute; reflexivity) 1000%nat 9).
  - split; [vm_compute; reflexivity|].
    apply (proj2 (force_calls_block 0 (λ x, x) 4 pow2_4 _
                    (reachable_fresh 0 (λ x, x) 4))
             ltac:(vm_compute; reflexivity) 1000%nat).
Defined.

Lemma queries_consistent_witness :
  size 4 (mkQueue [1; 2; 3; 0] (mkReadState 0 0) (mkWriteState 3 0)) = capacity 4
  ∧ full 4 (mkQueue [1; 2; 3; 0] (mkReadState 0 0) (mkWriteState 3 0)) = true
  ∧ ¬ (empty (mkQueue [1; 2; 3; 0] (mkReadState 0 0) (mkWriteState 3 0)) = true
       ∧ full 4 (mkQueue [1; 2; 3; 0] (mkReadState 0 0) (mkWriteState 3 0)) = true).
Proof.
  destruct (queries_consistent 0 (λ x, x) 4 pow2_4 _ reachable_full4)
    as (_ & Hfull & _ & Hnot).
  split; [vm_compute; reflexivity|].
  split; [apply Hfull; vm_compute; reflexivity | apply Hnot; lia].
Defined.

Lemma single_slot_queue_holds_nothing_witness :
  capacity 1 = 0 ∧ empty (fresh 0 1) = true ∧ full 1 (fresh 0 1) = true
  ∧ ∀ v : Z, emplace 1 v (fresh 0 1) = (false, fresh 0 1).
Proof.
  apply (single_slot_queue_holds_nothing 0 (λ x, x) 1).
  - exists 0. split; [lia | reflexivity].
  - reflexivity.
  - apply reachable_fresh.
Defined.

Lemma reset_restores_witness :
  items_ (reset (mkQueue [1; 2; 3; 4] (mkReadState 2 3) (mkWriteState 0 1)))
  = [1; 2; 3; 4]
  ∧ ∃ q', emplace_all 4 [7; 8; 9]
            (reset (mkQueue [1; 2; 3; 4] (mkReadState 2 3) (mkWriteState 0 1)))
          = Some q'
      ∧ full 4 q' = true ∧ contents 0 4 q' = [7; 8; 9].
Proof.
  destruct (reset_restores 0 (λ x, x) 4 pow2_4 _ reachable_wrapped4)
    as (Hitems & _ & _ & _ & _ & Hall).
  split; [exact Hitems|]. apply (Hall [7; 8; 9]). reflexivity.
Defined.

Lemma pop_discard_drops_oldest_witness :
  empty (mkQueue [1; 2; 3; 4] (mkReadState 2 3) (mkWriteState 0 1)) = false
  ∧ ∃ q', pop_discard 4 (mkQueue [1; 2; 3; 4] (mkReadState 2 3) (mkWriteState 0 1))
          = (true, q')
      ∧ items_ q' = [1; 2; 3; 4].
Proof.
  split; [vm_compute; reflexivity|].
  destruct (pop_discard_drops_oldest 0 (λ x, x) 4 pow2_4 _ reachable_wrapped4
              ltac:(vm_compute; reflexivity)) as (q' & Hpop & _ & Hitems & _).
  exists q'. split; [exact Hpop | exact Hitems].
Defined.

Lemma cached_indices_lag_witness :
  0 ≤ 1 < 4 ∧ 0 ≤ 3 < 4
  ∧ dist 4 1 2 + dist 4 2 0 ≤ 4 - 1
  ∧ dist 4 2 3 + dist 4 3 0
    = size 4 (mkQueue [1; 2; 3; 4] (mkReadState 2 3) (mkWriteState 0 1))
  ∧ length [1; 2; 3; 4] = Z.to_nat 4.
Proof.
  apply (cached_indices_lag 0 (λ x, x) 4 pow2_4 _ reachable_wrapped4).
Defined.

Lemma consume_n_takes_oldest_witness :
  contents 0 4 (mkQueue [1; 2; 3; 4] (mkReadState 2 3) (mkWriteState 0 1)) = [3; 4]
  ∧ ∃ q', consume_n 0 4 2 (by_value (λ x, x) record_call) 1
            (mkQueue [1; 2; 3; 4] (mkReadState 2 3) (mkWriteState 0 1)) []
          = Some (1, q', [3])
      ∧ contents 0 4 q' = [4].
Proof.
  split; [vm_compute; reflexivity|].
  destruct (proj1 (consume_n_takes_oldest 0 (λ x, x) 4 pow2_4
                     (by_value (λ x, x) record_call) [] 1 _ 2%nat
                     reachable_wrapped4 ltac:(lia) ltac:(vm_compute; lia)))
    as (q' & Hrun & Hc & _).
  exists q'. split; [exact Hrun | exact Hc].
Defined.

Lemma calls_refine_fifo_witness :
  fifo_calls 4
    [Emplace 1; Emplace 2; Pop; Emplace 3; Emplace 4; Emplace 5; ConsumeN (λ x, x) 2;
     Push 6; PopDiscard; ConsumeAll (λ x, x); ForcePush 7; ForcePop; ConsumeOne (λ x, x); Reset]
    (contents 0 4 (fresh 0 4))
  = Some (contents 0 4 (mkQueue [6; 7; 3; 4] (mkReadState 0 0) (mkWriteState 0 0)),
          [Accepted true; Accepted true; Popped (Some 1); Accepted true;
           Accepted true; Accepted false; Consumed 2 [2; 3]; Accepted true;
           Dropped true; Consumed 1 [6]; Done; Taken 7; ConsumedOne false []; Done]).
Proof.
  apply (calls_refine_fifo 0 (λ x, x) 4 pow2_4 4 _ (fresh 0 4) _ _
           (reachable_fresh 0 (λ x, x) 4)).
  vm_compute; reflexivity.
Defined.

Lemma calls_return_when_served_witness :
  ∃ q', calls 0 (λ x, x) 4 4
          [Emplace 1; Emplace 2; Pop; ForcePush 3; ConsumeAll (λ x, x); ForcePush 4]
          (fresh 0 4)
        = Some (q', [Accepted true; Accepted true; Popped (Some 1); Done;
                     Consumed 2 [2; 3]; Done])
    ∧ contents 0 4 q' = [4].
Proof.
  apply (calls_return_when_served 0 (λ x, x) 4 pow2_4 4 _ (fresh 0 4) _ _
           (reachable_fresh 0 (λ x, x) 4)).
  - vm_compute. lia.
  - vm_compute; reflexivity.
Defined.

Lemma interleaved_fifo_witness :
  all_in
    [Emplace 1; Emplace 2; Pop; Emplace 3; Emplace 4; Emplace 5; ConsumeN (λ x, x) 2;
     Push 6; ConsumeAll (λ x, x); ForcePush 7]
    [Accepted true; Accepted true; Popped (Some 1); Accepted true; Accepted true;
     Accepted false; Consumed 2 [2; 3]; Accepted true; Consumed 2 [4; 6]; Done]
  = all_out
      [Accepted true; Accepted true; Popped (Some 1); Accepted true; Accepted true;
       Accepted false; Consumed 2 [2; 3]; Accepted true; Consumed 2 [4; 6];
       @Done Z]
    ++ contents 0 4 (mkQueue [6; 7; 3; 4] (mkReadState 1 1) (mkWriteState 2 3)).
Proof.
  apply (interleaved_fifo 0 (λ x, x) 4 pow2_4 4).
  - vm_compute; reflexivity.
  - vm_compute; reflexivity.
Defined.

Lemma static_assert_accepts_witness :
  (static_assert_pow2 8 = true ↔ 8 = 0 ∨ is_pow2 8)
  ∧ (static_assert_pow2 0 = true ↔ 0 = 0 ∨ is_pow2 0)
  ∧ (static_assert_pow2 12 = true ↔ 12 = 0 ∨ is_pow2 12).
Proof.
  split; [|split].
  - apply (static_assert_accepts 8). lia.
  - apply (static_assert_accepts 0). lia.
  - apply (static_assert_accepts 12). lia.
Defined.

Lemma use_heap_threshold_witness :
  (use_heap 4096 = true ↔ 4096 < 4096)
  ∧ (items_storage 8192 = InlineArray ↔ 4096 < 8192)
  ∧ storage_bytes (2 ^ 57) = 0.
Proof.
  split; [|split].
  - apply (proj1 (use_heap_threshold 4096)). lia.
  - apply (proj1 (use_heap_threshold 8192)). lia.
  - apply (proj2 (use_heap_threshold (2 ^ 57))).
    + exists 57. split; [lia | reflexivity].
    + lia.
Defined.

Lemma mutex_queue_fifo_witness :
  mutex_queue.pop_all 2
    (mutex_queue.push_all [1; 2; 3] (mutex_queue.make 2))
  = Some ([1; 2], mutex_queue.mk 2 [3])
  ∧ mutex_queue.pop_all 4
      (mutex_queue.push_all [1; 2; 3] (mutex_queue.make 2)) = None.
Proof.
  split.
  - apply (proj1 (mutex_queue_fifo record_call [] [1; 2; 3] 2
                    (mutex_queue.make 2))).
    simpl. lia.
  - apply (proj1 (proj2 (mutex_queue_fifo record_call [] [1; 2; 3] 4
                           (mutex_queue.make 2)))).
    simpl. lia.
Defined.
